(** * PythonWorkshop: the PDF merger ([img2pdfConvertor/merge_pdfs.py]) and
      the reader ([Text2Speech/version1/text2speech_V1.py])

    A shallow embedding of the functions of the two scripts, and the
    properties the specification states about the merger.

    Modelling conventions.
    - A Python [str] is modelled by the [string] of its UTF-8 bytes; an
      ASCII [str] is one whose bytes are all below 128.  Comparing two
      [str] by code points is comparing their bytes.
    - [Str.is_digit] and [Str.lower] are the ASCII parts of [\d],
      [str.isdigit] and [str.lower].  The sort key is computed with them on
      ASCII strings; on the other strings it is what the interpreter's
      Unicode tables make of it, which is a parameter ([python]).  The
      suffix tests and the word tests compare a lower-cased string with an
      ASCII word, for which the ASCII part is all that counts.
    - [int] is arbitrary precision: a digit run denotes an [N]; [int(text)]
      raises [ValueError] beyond the interpreter's digit limit.
    - The file system maps each path string to the file it leads to
      ([resolve]) and each file to what it holds.  The PDF library is an
      external collaborator: what each of its calls does on a given file
      (return or raise) is data of that file.
    - [list.sort] calls the key on every element first, then sorts stably,
      comparing keys with [<] only; it is written as a stable insertion
      sort. *)

From Stdlib Require Import String Ascii NArith List Sorted Permutation Lia Bool.
From Stdlib Require Import OrderedTypeEx ZArith DecimalString.
From stdpp Require Import gmap strings list.

Import ListNotations.

(** ** Strings *)

Module Str.

(** [c.isdigit()] and the class [\d] on one ASCII character: the digits 0
    to 9.  The digits of other scripts are not ASCII characters. *)
Definition is_digit (c : ascii) : bool :=
  (48 <=? nat_of_ascii c)%nat && (nat_of_ascii c <=? 57)%nat.

Definition is_upper (c : ascii) : bool :=
  (65 <=? nat_of_ascii c)%nat && (nat_of_ascii c <=? 90)%nat.

Definition lower_char (c : ascii) : ascii :=
  if is_upper c then ascii_of_nat (nat_of_ascii c + 32) else c.

(** [s.lower()] on an ASCII string: the letters A to Z are lowered, and so
    are they within any string, whose other bytes are left as they are. *)
Fixpoint lower (s : string) : string :=
  match s with
  | EmptyString => EmptyString
  | String c s' => String (lower_char c) (lower s')
  end.

Fixpoint all_digits (s : string) : bool :=
  match s with
  | EmptyString => true
  | String c s' => is_digit c && all_digits s'
  end.

Fixpoint no_digit (s : string) : bool :=
  match s with
  | EmptyString => true
  | String c s' => negb (is_digit c) && no_digit s'
  end.

(** [s.isdigit()]: non-empty and made of digits only. *)
Definition isdigit (s : string) : bool :=
  match s with
  | EmptyString => false
  | String _ _ => all_digits s
  end.

Definition digit_value (c : ascii) : N := N.of_nat (nat_of_ascii c - 48).

Fixpoint int_from (acc : N) (s : string) : N :=
  match s with
  | EmptyString => acc
  | String c s' => int_from (10 * acc + digit_value c)%N s'
  end.

(** [int(s)] on a string of decimal digits. *)
Definition int (s : string) : N := int_from 0%N s.

(** [s.endswith(suffix)] *)
Definition endswith (s suffix : string) : bool :=
  (String.length suffix <=? String.length s)%nat
  && String.eqb
       (String.substring (String.length s - String.length suffix)
                         (String.length suffix) s)
       suffix.

Definition snoc (s : string) (c : ascii) : string := s +:+ String c EmptyString.

(** [re.split(r'(\d+)', s)]: the maximal digit runs of [s] are the
    separators and, being captured, are kept; the result alternates
    text, digits, text, ..., text.  [cur] is the run being read and
    [in_digits] tells whether it is a digit run. *)
Fixpoint split_runs (in_digits : bool) (cur : string) (s : string) : list string :=
  match s with
  | EmptyString => if in_digits then [cur; EmptyString] else [cur]
  | String c s' =>
      if is_digit c then
        if in_digits then split_runs true (snoc cur c) s'
        else cur :: split_runs true (String c EmptyString) s'
      else
        if in_digits then cur :: split_runs false (String c EmptyString) s'
        else split_runs false (snoc cur c) s'
  end.

Definition re_split_digits (s : string) : list string :=
  split_runs false EmptyString s.

(** [os.path.basename(p)]: what follows the last slash. *)
Fixpoint basename_from (cur : string) (p : string) : string :=
  match p with
  | EmptyString => cur
  | String c p' =>
      if Ascii.eqb c "/"%char then basename_from EmptyString p'
      else basename_from (snoc cur c) p'
  end.

Definition basename (p : string) : string := basename_from EmptyString p.

Definition startswith_slash (p : string) : bool :=
  match p with
  | String c _ => Ascii.eqb c "/"%char
  | EmptyString => false
  end.

(** [os.path.join(a, b)] (posixpath, two arguments). *)
Definition join (a b : string) : string :=
  if startswith_slash b then b
  else if String.eqb a EmptyString || endswith a "/" then a +:+ b
  else a +:+ "/" +:+ b.

(** The string has ASCII characters only. *)
Fixpoint all_ascii (s : string) : bool :=
  match s with
  | EmptyString => true
  | String c s' => (nat_of_ascii c <? 128)%nat && all_ascii s'
  end.

(** [c * n] *)
Fixpoint repeat (c : ascii) (n : nat) : string :=
  match n with
  | O => EmptyString
  | S n' => String c (repeat c n')
  end.

End Str.

(** ** The sort key *)

(** What the interpreter brings to line 10.  [unicode_runs s], asked for a
    string [s] that is not ASCII, is what the comprehension makes of it
    with the Unicode tables: [None] when an [int(text)] raises
    [ValueError], else the first text run in lower case followed, for each
    digit run, by its number and the text run after it in lower case.
    [max_str_digits] is [sys.get_int_max_str_digits()], 0 for no limit. *)
Record python : Type := {
  unicode_runs : string -> option (string * list (N * string));
  max_str_digits : nat
}.

(** An element of the list [natural_sort_key] returns: a Python [int] or a
    Python [str]. *)
Inductive key_part : Type :=
| KInt (n : N)
| KStr (s : string).

(** [int(text)] raises [ValueError] for more digits than the limit. *)
Definition too_long (py : python) (text : string) : bool :=
  (0 <? max_str_digits py)%nat && (max_str_digits py <? String.length text)%nat.

(** [int(text) if text.isdigit() else text.lower()] on an ASCII run;
    [None] is the [ValueError] of [int]. *)
Definition key_of_run (py : python) (text : string) : option key_part :=
  if Str.isdigit text then
    if too_long py text then None else Some (KInt (Str.int text))
  else Some (KStr (Str.lower text)).

(** A comprehension whose element may raise: the first exception ends
    it. *)
Fixpoint all_some {A : Type} (l : list (option A)) : option (list A) :=
  match l with
  | [] => Some []
  | None :: _ => None
  | Some x :: l' =>
      match all_some l' with
      | Some xs => Some (x :: xs)
      | None => None
      end
  end.

(** The key of an ASCII string. *)
Definition ascii_key (py : python) (s : string) : option (list key_part) :=
  all_some (map (key_of_run py) (Str.re_split_digits s)).

(** The list the runs of [unicode_runs] stand for. *)
Definition key_of_runs (runs : string * list (N * string)) : list key_part :=
  KStr (fst runs)
  :: flat_map (fun nt => [KInt (fst nt); KStr (snd nt)]) (snd runs).

(** The key of a string that is not ASCII. *)
Definition unicode_key (py : python) (s : string) : option (list key_part) :=
  match unicode_runs py s with
  | Some runs => Some (key_of_runs runs)
  | None => None
  end.

(** [[int(text) if text.isdigit() else text.lower()
      for text in re.split(r'(\d+)', s)]]; [None] when it raises
    [ValueError]. *)
Definition natural_sort_key (py : python) (s : string) : option (list key_part) :=
  if Str.all_ascii s then ascii_key py s else unicode_key py s.

(** [x == y] on key parts; an [int] never equals a [str]. *)
Definition part_eqb (x y : key_part) : bool :=
  match x, y with
  | KInt a, KInt b => N.eqb a b
  | KStr a, KStr b => String.eqb a b
  | _, _ => false
  end.

(** [x < y] on key parts; [None] is the [TypeError] Python raises when an
    [int] is compared with a [str]. *)
Definition part_lt (x y : key_part) : option bool :=
  match x, y with
  | KInt a, KInt b => Some (N.ltb a b)
  | KStr a, KStr b => Some (String.ltb a b)
  | _, _ => None
  end.

(** [a < b] on Python lists: the first position where the elements differ
    decides; if there is none, the shorter list is the smaller. *)
Fixpoint key_lt (a b : list key_part) : option bool :=
  match a, b with
  | [], [] => Some false
  | [], _ :: _ => Some true
  | _ :: _, [] => Some false
  | x :: a', y :: b' => if part_eqb x y then key_lt a' b' else part_lt x y
  end.

(** [natural_sort_key(s) < natural_sort_key(t)], for two strings whose keys
    are computed.  The comparison of two such keys never raises (lemma
    [key_lt_natural]); [list.sort] compares no others. *)
Definition natural_lt (py : python) (s t : string) : bool :=
  match natural_sort_key py s, natural_sort_key py t with
  | Some a, Some b =>
      match key_lt a b with
      | Some r => r
      | None => false
      end
  | _, _ => false
  end.

(** ** [list.sort(key=...)] *)

Section StableSort.
Context {A : Type} (lt : A -> A -> bool).

(** [x] comes from before every element of [l] in the original list, so it
    stays in front of the elements it is not greater than. *)
Fixpoint insert_sorted (x : A) (l : list A) : list A :=
  match l with
  | [] => [x]
  | y :: l' => if lt y x then y :: insert_sorted x l' else x :: y :: l'
  end.

Fixpoint stable_sort (l : list A) : list A :=
  match l with
  | [] => []
  | x :: l' => insert_sorted x (stable_sort l')
  end.
End StableSort.

(** [x] is not greater than [y]. *)
Definition not_gt {A : Type} (lt : A -> A -> bool) (x y : A) : Prop :=
  lt y x = false.

(** [input_paths.sort(key=natural_sort_key)]: the key is called on every
    element before anything is moved; when a call raises, the exception
    goes on to the caller and the list is as it was ([None]); otherwise
    the list is sorted. *)
Definition natural_sort (py : python) (paths : list string) : option (list string) :=
  match all_some (map (natural_sort_key py) paths) with
  | Some _ => Some (stable_sort (natural_lt py) paths)
  | None => None
  end.

(** ** The world the merger runs in *)

(** A page, as the bytes the library holds for it. *)
Definition page : Type := string.

(** The exceptions the code tells apart: its [except PdfReadError] clause
    and its [except Exception] clause. *)
Inductive exn : Type :=
| PdfReadError
| OtherException.

(** What the PDF library does with one document, call by call. *)
Record pdf : Type := {
  (** [reader.is_encrypted] *)
  is_encrypted : bool;
  (** [reader.decrypt(password)]: [None] when the call returns, [Some e]
      when it raises [e] *)
  decrypt : string -> option exn;
  (** [reader.pages]: the pages in document order, or the exception that
      reading them raises *)
  pages : exn + list page;
  (** [merger.append(fileobj=infile)]: [None] when it appends every page of
      the document, [Some e] when it raises [e] and appends nothing *)
  append_raises : option exn
}.

(** What is found at a path. *)
Inductive node : Type :=
| Dir (entries : list string)   (* a directory, with its [os.listdir] order *)
| Unopenable (e : exn)          (* [open(path, 'rb')] raises *)
| Unparseable (e : exn)         (* [PdfReader(infile)] raises *)
| Pdf (d : pdf).

(** How writing the output goes. *)
Inductive write_behaviour : Type :=
| WriteOk                   (* [open] and [merger.write] both return *)
| OpenFails                 (* [open(output_path, 'wb')] raises *)
| WriteFails (remains : node). (* the file is opened, so created or truncated,
                               then [merger.write] raises and [remains] is
                               what remains on disk *)

(** The file system: the file each path string leads to, by a name chosen
    once for each file (two strings lead to the same file, as ["out.pdf"]
    and ["./out.pdf"] do, exactly when they resolve alike), and what is
    found at each file. *)
Record file_system : Type := {
  nodes : gmap string node;
  resolve : string -> string
}.

(** [fs !! path] is what is found at [path]. *)
#[global] Instance file_system_lookup : Lookup string node file_system :=
  fun path fs => nodes fs !! resolve fs path.

(** [<[path := n]> fs] puts [n] at the file [path] leads to. *)
#[global] Instance file_system_insert : Insert string node file_system :=
  fun path n fs =>
    {| nodes := <[resolve fs path := n]> (nodes fs); resolve := resolve fs |}.

(** No file, and every path string its own file. *)
#[global] Instance file_system_empty : Empty file_system :=
  {| nodes := ∅; resolve := fun path => path |}.

Record world : Type := {
  files : file_system;
  on_write : string -> write_behaviour;
  interpreter : python
}.

(** The message printed for one candidate. *)
Inductive outcome : Type :=
| Merged (page_count : nat)            (* "Added n pages." *)
| SkippedNotFound                      (* "File not found, skipping" *)
| SkippedNotPdf                        (* "File is not a PDF, skipping" *)
| SkippedEncryptedUndecryptable        (* "encrypted and could not be decrypted" *)
| SkippedEmptyOrCorrupt                (* "seems empty or corrupted (0 pages)" *)
| SkippedUnexpectedError (e : exn).    (* the two [except] clauses of the loop *)

(** The calls made on the library and on the output file. *)
Inductive call : Type :=
| CPdfWriter                          (* [merger = PdfWriter()] *)
| CDecrypt (path password : string)
| CAppend (path : string)
| COpenOutput (path : string)
| CWrite (path : string)
| CClose.                             (* [merger.close()] *)

(** The local variables of [merge_pdfs], with what it printed per file and
    what it called so far. *)
Record state : Type := {
  merger : list page;
  pdf_files_processed : list string;
  total_pages_added : nat;
  outcomes : list (string * outcome);
  calls : list call
}.

(** ** [merge_pdfs] *)

Definition initial : state :=
  {| merger := []; pdf_files_processed := []; total_pages_added := 0;
     outcomes := []; calls := [] |}.

Definition called (c : call) (st : state) : state :=
  {| merger := merger st;
     pdf_files_processed := pdf_files_processed st;
     total_pages_added := total_pages_added st;
     outcomes := outcomes st;
     calls := calls st ++ [c] |}.

(** A branch that prints its message and goes on to the next path. *)
Definition skip (path : string) (o : outcome) (st : state) : state :=
  {| merger := merger st;
     pdf_files_processed := pdf_files_processed st;
     total_pages_added := total_pages_added st;
     outcomes := outcomes st ++ [(path, o)];
     calls := calls st |}.

(** Lines 59 to 68: count the pages and append the document. *)
Definition count_and_append (path : string) (d : pdf) (st : state) : state :=
  match pages d with
  | inl e => skip path (SkippedUnexpectedError e) st
  | inr ps =>
      let num_pages := length ps in
      if (num_pages =? 0)%nat then skip path SkippedEmptyOrCorrupt st
      else
        let st1 := called (CAppend path) st in
        match append_raises d with
        | Some e => skip path (SkippedUnexpectedError e) st1
        | None =>
            {| merger := merger st1 ++ ps;
               pdf_files_processed :=
                 pdf_files_processed st1 ++ [Str.basename path];
               total_pages_added := total_pages_added st1 + num_pages;
               outcomes := outcomes st1 ++ [(path, Merged num_pages)];
               calls := calls st1 |}
        end
  end.

(** The body of the [for path in input_paths] loop. *)
Definition process (fs : file_system) (st : state) (path : string) : state :=
  match fs !! path with
  | None => skip path SkippedNotFound st
  | Some n =>
      if negb (Str.endswith (Str.lower path) ".pdf") then
        skip path SkippedNotPdf st
      else
        match n with
        | Dir _ => skip path (SkippedUnexpectedError OtherException) st
        | Unopenable e => skip path (SkippedUnexpectedError e) st
        | Unparseable e => skip path (SkippedUnexpectedError e) st
        | Pdf d =>
            if is_encrypted d then
              let st1 := called (CDecrypt path "") st in
              match decrypt d "" with
              | Some _ => skip path SkippedEncryptedUndecryptable st1
              | None => count_and_append path d st1
              end
            else count_and_append path d st
        end
  end.

(** The document [merger.write] leaves on disk. *)
Definition written (ps : list page) : node :=
  Pdf {| is_encrypted := false;
         decrypt := fun _ => Some PdfReadError;
         pages := inr ps;
         append_raises := None |}.

(** An exception that leaves [merge_pdfs]. *)
Inductive exception : Type := ValueError.

(** What a call of [merge_pdfs] leaves behind. *)
Record run : Type := {
  (** the call returned [True]; [false] when it returned [False] or raised *)
  returned : bool;
  (** the exception the call raised, if it did *)
  raised : option exception;
  locals : state;
  (** the contents of the list object the caller passed *)
  input_paths_after : list string;
  files_after : file_system
}.

(** The [for] loop over the candidates. *)
Definition loop (fs : file_system) (l : list string) (st : state) : state :=
  fold_left (process fs) l st.

(** Lines 31 and 32: the order in which the candidates are gone through,
    the list being sorted in place with [sort_files]; [None] when the sort
    raises. *)
Definition processing_order (py : python) (input_paths : list string)
    (sort_files : bool) : option (list string) :=
  if sort_files then natural_sort py input_paths else Some input_paths.

(** Lines 75 to 93: the early return when nothing was merged, else the
    write of the output; [merger.close()] on every way out.  [order] is
    what the caller's list holds by then and [st] the state after the
    loop. *)
Definition finish (w : world) (order : list string) (output_path : string)
    (st : state) : run :=
  match pdf_files_processed st with
  | [] =>
      {| returned := false;
         raised := None;
         locals := called CClose st;
         input_paths_after := order;
         files_after := files w |}
  | _ :: _ =>
      let st1 := called (COpenOutput output_path) st in
      match on_write w output_path with
      | OpenFails =>
          {| returned := false;
             raised := None;
             locals := called CClose st1;
             input_paths_after := order;
             files_after := files w |}
      | WriteFails remains =>
          {| returned := false;
             raised := None;
             locals := called CClose (called (CWrite output_path) st1);
             input_paths_after := order;
             files_after := <[output_path := remains]> (files w) |}
      | WriteOk =>
          {| returned := true;
             raised := None;
             locals := called CClose (called (CWrite output_path) st1);
             input_paths_after := order;
             files_after := <[output_path := written (merger st)]> (files w) |}
      end
  end.

(** The writer is made first (line 24).  When the sort of line 32 raises,
    the exception leaves the function at once: nothing is printed, nothing
    is closed, and the list is as the caller passed it. *)
Definition merge_pdfs (w : world) (input_paths : list string)
    (output_path : string) (sort_files : bool) : run :=
  let st := called CPdfWriter initial in
  match processing_order (interpreter w) input_paths sort_files with
  | None =>
      {| returned := false;
         raised := Some ValueError;
         locals := st;
         input_paths_after := input_paths;
         files_after := files w |}
  | Some input_paths =>
      finish w input_paths output_path (loop (files w) input_paths st)
  end.

(** The world a later call sees. *)
Definition world_after (w : world) (r : run) : world :=
  {| files := files_after r; on_write := on_write w;
     interpreter := interpreter w |}.

(** ** Directory discovery *)

(** [sys.exit(code)] *)
Inductive exit : Type := SystemExit (code : nat).

Definition find_pdfs_in_directory (w : world) (directory_path : string)
    : exit + list string :=
  match files w !! directory_path with
  | Some (Dir entries) =>
      inr (fold_left
             (fun pdf_files filename =>
                if Str.endswith (Str.lower filename) ".pdf"
                then pdf_files ++ [Str.join directory_path filename]
                else pdf_files)
             entries [])
  | _ => inl (SystemExit 1)
  end.

(** ** The outcome of one candidate *)

Definition decryption_fails (d : pdf) : bool :=
  is_encrypted d && match decrypt d "" with Some _ => true | None => false end.

(** The outcome of a candidate, by the six steps of the algorithm: it looks
    at nothing but the candidate itself. *)
Definition classify (fs : file_system) (path : string) : outcome :=
  match fs !! path with
  | None => SkippedNotFound
  | Some n =>
      if negb (Str.endswith (Str.lower path) ".pdf") then SkippedNotPdf
      else
        match n with
        | Dir _ => SkippedUnexpectedError OtherException
        | Unopenable e => SkippedUnexpectedError e
        | Unparseable e => SkippedUnexpectedError e
        | Pdf d =>
            if decryption_fails d then SkippedEncryptedUndecryptable
            else
              match pages d with
              | inl e => SkippedUnexpectedError e
              | inr ps =>
                  if (length ps =? 0)%nat then SkippedEmptyOrCorrupt
                  else match append_raises d with
                       | Some e => SkippedUnexpectedError e
                       | None => Merged (length ps)
                       end
              end
        end
  end.

Definition is_merged (o : outcome) : bool :=
  match o with Merged _ => true | _ => false end.

(** The pages of the document at a path, in document order. *)
Definition document_pages (fs : file_system) (path : string) : list page :=
  match fs !! path with
  | Some (Pdf d) => match pages d with inr ps => ps | inl _ => [] end
  | _ => []
  end.

Definition merged_in (fs : file_system) (path : string) : bool :=
  is_merged (classify fs path).

(** The paths of the candidates whose outcome is [Merged], in order. *)
Definition merged_paths (os : list (string * outcome)) : list string :=
  map fst (List.filter (fun po => is_merged (snd po)) os).

(** Some candidate was merged. *)
Definition some_merged (os : list (string * outcome)) : Prop :=
  exists p n, In (p, Merged n) os.

Definition outcomes_of (fs : file_system) (l : list string)
    : list (string * outcome) :=
  map (fun p => (p, classify fs p)) l.

Definition pages_of (fs : file_system) (l : list string) : list page :=
  concat (map (document_pages fs) (List.filter (merged_in fs) l)).

(** Every path but [bad]. *)
Definition other_than (bad : string) (p : string) : bool :=
  negb (String.eqb p bad).

(** A name that ends in ".pdf", whatever the case of its letters. *)
Definition is_pdf_name (name : string) : bool :=
  Str.endswith (Str.lower name) ".pdf".

(** ** The calls of a run *)

(** The library calls made for one candidate. *)
Definition calls_for (fs : file_system) (p : string) : list call :=
  calls (process fs initial p).

(** The calls that follow the loop. *)
Definition closing_calls (w : world) (out : string) (none_merged : bool)
    : list call :=
  if none_merged then [CClose]
  else match on_write w out with
       | OpenFails => [COpenOutput out; CClose]
       | _ => [COpenOutput out; CWrite out; CClose]
       end.

Definition none_merged (fs : file_system) (l : list string) : bool :=
  match List.filter (merged_in fs) l with [] => true | _ :: _ => false end.

Definition is_close (c : call) : bool :=
  match c with CClose => true | _ => false end.

Definition touches_output (c : call) : bool :=
  match c with COpenOutput _ | CWrite _ => true | _ => false end.

(** The candidates the loop goes through: none when the sort raises. *)
Definition effective_order (w : world) (input_paths : list string)
    (sort_files : bool) : list string :=
  match processing_order (interpreter w) input_paths sort_files with
  | Some order => order
  | None => []
  end.

(** The calls that end a run: none when the sort raises. *)
Definition ending (w : world) (input_paths : list string) (out : string)
    (sort_files : bool) : list call :=
  match processing_order (interpreter w) input_paths sort_files with
  | Some order => closing_calls w out (none_merged (files w) order)
  | None => []
  end.

(** The output names none of the input files. *)
Definition output_apart (w : world) (input_paths : list string)
    (output_path : string) : Prop :=
  Forall (fun p => resolve (files w) p <> resolve (files w) output_path)
         input_paths.

(** ** The shape and the order of sort keys *)

(** A total comparison that agrees with Python's [<] wherever Python
    defines it; it is used in proofs only. *)
Definition part_cmp (x y : key_part) : comparison :=
  match x, y with
  | KInt a, KInt b => N.compare a b
  | KStr a, KStr b => String.compare a b
  | KInt _, KStr _ => Lt
  | KStr _, KInt _ => Gt
  end.

Fixpoint key_cmp (a b : list key_part) : comparison :=
  match a, b with
  | [], [] => Eq
  | [], _ :: _ => Lt
  | _ :: _, [] => Gt
  | x :: a', y :: b' =>
      match part_cmp x y with
      | Eq => key_cmp a' b'
      | c => c
      end
  end.

Definition is_lt (c : comparison) : bool :=
  match c with Lt => true | _ => false end.

(** The shape of a key: strings and integers alternate, and a string comes
    last.  [str_next] tells which kind is due. *)
Fixpoint alternating (str_next : bool) (k : list key_part) : bool :=
  match k with
  | [] => negb str_next
  | KStr _ :: k' => str_next && alternating false k'
  | KInt _ :: k' => negb str_next && alternating true k'
  end.

(** Text runs and digit runs alternate; [text_next] tells which is due, and
    a text run comes last. *)
Fixpoint runs_ok (text_next : bool) (runs : list string) : bool :=
  match runs with
  | [] => negb text_next
  | r :: rest =>
      (if text_next then Str.no_digit r else Str.isdigit r)
      && runs_ok (negb text_next) rest
  end.


(** The comparison of the keys of two paths, [None] before every key; it
    is used in proofs only. *)
Definition path_cmp (py : python) (s t : string) : comparison :=
  match natural_sort_key py s, natural_sort_key py t with
  | Some a, Some b => key_cmp a b
  | None, Some _ => Lt
  | Some _, None => Gt
  | None, None => Eq
  end.

(** The comparison of paths through their keys, made total. *)
Definition path_lt (py : python) (s t : string) : bool :=
  is_lt (path_cmp py s t).

(** Every path of the list has a key. *)
Definition keys_defined (py : python) (paths : list string) : Prop :=
  Forall (fun p => natural_sort_key py p <> None) paths.

(** ** The command line *)

Module Cli.

(** What [parser.parse_args()] returns: the positional paths, the value of
    [-d] ([None] when the option is absent), the value of [-o] (argparse
    fills in ['merged_output.pdf'] when absent) and the [-s] flag. *)
Record args : Type := {
  input : list string;
  directory : option string;
  output : string;
  sort : bool
}.

(** [if args.directory:] holds for a string that is not empty. *)
Definition given (directory : option string) : option string :=
  match directory with
  | Some d => if String.eqb d EmptyString then None else Some d
  | None => None
  end.

(** Lines 148 to 163: where the input files come from, or the exit. *)
Definition input_files (w : world) (a : args) : exit + list string :=
  match given (directory a) with
  | Some d =>
      match find_pdfs_in_directory w d with
      | inl e => inl e
      | inr [] => inl (SystemExit 1)
      | inr found => inr found
      end
  | None =>
      match input a with
      | [] => inl (SystemExit 1)
      | paths => inr paths
      end
  end.

(** The script from line 148 on, given the namespace [parse_args]
    returned: its exit status, and the run of [merge_pdfs] when it gets
    that far.  An exception that leaves [merge_pdfs] ends the script with
    status 1. *)
Definition main (w : world) (a : args) : nat * option run :=
  match input_files w a with
  | inl (SystemExit code) => (code, None)
  | inr paths =>
      let r := merge_pdfs w paths (output a) (sort a) in
      (if returned r then 0 else 1, Some r)
  end.

(** What [parser.parse_args()] does at line 146: it exits with status 2 on
    a usage error, prints the help and exits with status 0 on [-h], or
    returns the namespace. *)
Inductive parse : Type :=
| UsageError
| Help
| Namespace (a : args).

(** The whole script. *)
Definition script (w : world) (p : parse) : nat * option run :=
  match p with
  | UsageError => (2, None)
  | Help => (0, None)
  | Namespace a => main w a
  end.

End Cli.

(** ** Vocabulary of the further properties *)

Fixpoint no_slash (s : string) : bool :=
  match s with
  | EmptyString => true
  | String c s' => negb (Ascii.eqb c "/"%char) && no_slash s'
  end.

(** The number of pages an outcome stands for. *)
Definition page_count_of (o : outcome) : nat :=
  match o with Merged n => n | _ => 0 end.

(** The same document, with the encryption flag cleared. *)
Definition unencrypted (d : pdf) : pdf :=
  {| is_encrypted := false; decrypt := decrypt d; pages := pages d;
     append_raises := append_raises d |}.

Definition starts_with_digit (s : string) : bool :=
  match s with
  | String c _ => Str.is_digit c
  | EmptyString => false
  end.

(** Whether the scan of [re.split] is inside a digit run after reading [q],
    having started in state [b]. *)
Fixpoint digit_state (b : bool) (q : string) : bool :=
  match q with
  | EmptyString => b
  | String c q' => digit_state (Str.is_digit c) q'
  end.

(** [q] ends with a digit. *)
Definition ends_with_digit (q : string) : bool := digit_state false q.



(** ** The reader ([Text2Speech/version1/text2speech_V1.py]) *)

Module Speech.

(** A voice of the speech engine: [v.id] and [v.name]. *)
Record voice : Type := { id : string; name : string }.

(** The calls made on the engine; they are taken to return. *)
Inductive engine_call : Type :=
| SetVoice (voice_id : string)
| SetRate (rate : Z)
| Say (text : string)
| RunAndWait.

(** [sub in s] *)
Fixpoint contains (sub s : string) : bool :=
  String.prefix sub s
  || match s with
     | EmptyString => false
     | String _ s' => contains sub s'
     end.

(** The test of line 13 on one voice. *)
Definition wanted (v : voice) : bool :=
  contains "child" (Str.lower (name v))
  || contains "kid" (Str.lower (name v))
  || contains "female" (Str.lower (name v)).

(** The [for v in voices] loop: the id of the first voice that passes the
    test, [None] when the loop ends without a [break]. *)
Fixpoint first_wanted (voices : list voice) : option string :=
  match voices with
  | [] => None
  | v :: rest => if wanted v then Some (id v) else first_wanted rest
  end.

(** Lines 16 to 19: [if selected_voice:] holds for an id that is not the
    empty string; [elif voices:] for a list that is not empty. *)
Definition voice_calls (voices : list voice) (selected_voice : option string)
    : list engine_call :=
  match selected_voice with
  | Some i =>
      if negb (String.eqb i EmptyString) then [SetVoice i]
      else match voices with
           | v :: _ => [SetVoice (id v)]
           | [] => []
           end
  | None =>
      match voices with
      | v :: _ => [SetVoice (id v)]
      | [] => []
      end
  end.

Definition default_rate : Z := 150.

(** [voices] is what [engine.getProperty('voices')] returns. *)
Definition speak_text (voices : list voice) (text : string) (rate : Z)
    : list engine_call :=
  voice_calls voices (first_wanted voices) ++ [SetRate rate; Say text; RunAndWait].

(** [str(z)] *)
Definition str_of_int (z : Z) : string := NilZero.string_of_int (Z.to_int z).

(** The newline character. *)
Definition nl : string := String "010"%char EmptyString.

(** What the code can make an exception out of: the [ValueError] it raises
    itself, or anything raised by [open], by decoding or by the PDF
    library. *)
Inductive failure : Type :=
| ValueError (message : string)
| Raised.

(** A file, as the two readers see it. *)
Record file : Type := {
  (** [f.read()] in text mode, [None] when opening or decoding raises *)
  text : option string;
  (** the pages of [PyPDF2.PdfReader(f)], each with what [extract_text()]
      returns, [None] for a page where it raises; [None] as a whole when
      the file does not open or parse *)
  pdf_pages : option (list (option string))
}.

Definition read_text_file (fs : gmap string file) (path : string)
    : failure + string :=
  match fs !! path with
  | Some f => match text f with Some s => inr s | None => inl Raised end
  | None => inl Raised
  end.

(** The block added to [full_text] for page [i]. *)
Definition page_block (i : Z) (page_text : string) : string :=
  nl +:+ "--- Page " +:+ str_of_int i +:+ " ---" +:+ nl +:+ page_text +:+ nl.

(** The loop of lines 41 to 43, from page number [i] on. *)
Fixpoint read_pages (i : Z) (pages : list (option string)) (full_text : string)
    : failure + string :=
  match pages with
  | [] => inr full_text
  | None :: _ => inl Raised
  | Some page_text :: rest =>
      read_pages (i + 1) rest (full_text +:+ page_block i page_text)
  end.

Definition read_pdf_file (fs : gmap string file) (path : string)
    (page_number : option Z) : failure + string :=
  match fs !! path with
  | None => inl Raised
  | Some f =>
      match pdf_pages f with
      | None => inl Raised
      | Some pages =>
          let num_pages := Z.of_nat (length pages) in
          match page_number with
          | Some n =>
              if (n <? 1)%Z || (num_pages <? n)%Z then
                inl (ValueError ("Invalid page number. The PDF has "
                                 +:+ str_of_int num_pages +:+ " pages."))
              else
                match nth_error pages (Z.to_nat (n - 1)) with
                | Some (Some page_text) =>
                    inr ("Reading page " +:+ str_of_int n +:+ ":" +:+ nl
                         +:+ page_text)
                | _ => inl Raised
                end
          | None => read_pages 1 pages EmptyString
          end
      end
  end.

(** The extension [os.path.splitext] finds in a base name: what starts at
    its last dot, unless only dots come before it.  [named] tells whether a
    character other than a dot was read; [ext] is the extension so far. *)
Fixpoint ext_scan (named : bool) (ext : string) (s : string) : string :=
  match s with
  | EmptyString => ext
  | String c s' =>
      if Ascii.eqb c "."%char then
        ext_scan named (if named then String c EmptyString else EmptyString) s'
      else
        ext_scan true
          (if String.eqb ext EmptyString then EmptyString else Str.snoc ext c) s'
  end.

(** [os.path.splitext(p)[1]] *)
Definition splitext_ext (p : string) : string :=
  ext_scan false EmptyString (Str.basename p).

(** What [process_file] prints or does. *)
Inductive report : Type :=
| FileNotFound
| Unsupported
| Spoke (calls : list engine_call)
| ErrorProcessing (e : failure).

Definition process_file (fs : gmap string file) (voices : list voice)
    (file_path : string) (page_number : option Z) : report :=
  match fs !! file_path with
  | None => FileNotFound
  | Some _ =>
      let ext := Str.lower (splitext_ext file_path) in
      let content :=
        if String.eqb ext ".txt" then Some (read_text_file fs file_path)
        else if String.eqb ext ".pdf"
             then Some (read_pdf_file fs file_path page_number)
             else None in
      match content with
      | None => Unsupported
      | Some (inl e) => ErrorProcessing e
      | Some (inr content) => Spoke (speak_text voices content default_rate)
      end
  end.

End Speech.

(** The strings of a list, put end to end. *)
Definition join_strings (l : list string) : string :=
  fold_right String.append EmptyString l.


Fixpoint no_dot (s : string) : bool :=
  match s with
  | EmptyString => true
  | String c s' => negb (Ascii.eqb c "."%char) && no_dot s'
  end.

(** An extension: empty, or a dot followed by neither dot nor slash. *)
Definition extension_shaped (ext : string) : Prop :=
  ext = EmptyString
  \/ exists rest,
       ext = String "." rest /\ no_dot rest = true /\ no_slash rest = true.

(** ** Sample worlds *)

(** The interpreter of the sample runs: Python 3.11 with its settings as
    they come.  Of the strings that are not ASCII it knows the names the
    samples use, with what Python makes of them: an Arabic-Indic digit
    three is a digit, [É] lowers to [é], and [int] refuses a superscript
    two (so ["1²2.pdf"] has no key).  It is asked for no other. *)
Definition sample_python : python :=
  {| unicode_runs := fun s =>
       if String.eqb s "file٣.pdf" then Some ("file", [(3%N, ".pdf")])
       else if String.eqb s "Été.PDF" || String.eqb s "été.pdf"
            then Some ("été.pdf", [])
            else None;
     max_str_digits := 4300 |}.

Definition plain (ps : list page) : node :=
  Pdf {| is_encrypted := false; decrypt := fun _ => Some PdfReadError;
         pages := inr ps; append_raises := None |}.

(** Encrypted with a password that is not the empty one: [decrypt('')]
    returns, having decrypted nothing, and the pages cannot be read. *)
Definition locked : node :=
  Pdf {| is_encrypted := true; decrypt := fun _ => None;
         pages := inl PdfReadError; append_raises := None |}.

(** Encrypted in a way the library cannot handle: [decrypt] raises. *)
Definition undecryptable (ps : list page) : node :=
  Pdf {| is_encrypted := true; decrypt := fun _ => Some OtherException;
         pages := inr ps; append_raises := None |}.

(** Encrypted with the empty password. *)
Definition unlocked (ps : list page) : node :=
  Pdf {| is_encrypted := true; decrypt := fun _ => None;
         pages := inr ps; append_raises := None |}.

Definition sample_files : file_system :=
  <["docs" := Dir ["a.pdf"; "notes.txt"; "B.PDF"; "sub"] ]>
  (<["docs/a.pdf" := plain ["a1"; "a2"] ]>
  (<["docs/B.PDF" := plain ["b1"; "b2"; "b3"] ]>
  (<["docs/notes.txt" := Unopenable OtherException]>
  (<["docs/sub" := Dir ["c.pdf"] ]>
  (<["docs/sub/c.pdf" := plain ["c1"] ]>
  (<["file1.pdf" := plain ["p1"] ]>
  (<["file2.pdf" := locked]>
  (<["file3.pdf" := undecryptable ["q1"; "q2"] ]>
  (<["file10.pdf" := plain ["r1"; "r2"] ]>
  (<["empty.pdf" := plain [] ]>
  (<["broken.pdf" := Unparseable PdfReadError]> ∅))))))))))).

Definition sample (b : write_behaviour) : world :=
  {| files := sample_files; on_write := fun _ => b;
     interpreter := sample_python |}.

(** A world with one two-page document and nothing else. *)
Definition one_document : world :=
  {| files := <["a.pdf" := plain ["a1"; "a2"] ]> ∅;
     on_write := fun _ => WriteOk;
     interpreter := sample_python |}.

(** What follows the leading ["./"]s of a path. *)
Fixpoint strip_dot_slash (p : string) : string :=
  match p with
  | String "." (String "/" p') => strip_dot_slash p'
  | _ => p
  end.

(** The same document, in a file system where ["./"] in front of a path
    changes nothing. *)
Definition one_document_here : world :=
  {| files := {| nodes := <["a.pdf" := plain ["a1"; "a2"] ]> ∅;
                 resolve := strip_dot_slash |};
     on_write := fun _ => WriteOk;
     interpreter := sample_python |}.

(** A name with a run of 4301 digits. *)
Definition long_number : string := Str.repeat "1" 4301 +:+ ".pdf".
(** ** Worked examples *)

Example natural_sort_files :
  natural_sort sample_python ["file10.pdf"; "file2.pdf"; "file1.pdf"]
  = Some ["file1.pdf"; "file2.pdf"; "file10.pdf"].
Proof. vm_compute. reflexivity. Qed.

Example key_file10 :
  natural_sort_key sample_python "file10.pdf"
  = Some [KStr "file"; KInt 10; KStr ".pdf"].
Proof. vm_compute. reflexivity. Qed.

Example key_digits_only :
  natural_sort_key sample_python "007" = Some [KStr ""; KInt 7; KStr ""].
Proof. vm_compute. reflexivity. Qed.

Example key_long_number : natural_sort_key sample_python long_number = None.
Proof. vm_compute. reflexivity. Qed.

(** Beyond ASCII: a digit of another script is a digit, letters with
    accents have a lower case, and a superscript digit makes [int]
    raise. *)
Example natural_sort_other_digits :
  natural_sort_key sample_python "file٣.pdf"
  = Some [KStr "file"; KInt 3; KStr ".pdf"]
  /\ natural_sort sample_python ["file10.pdf"; "file٣.pdf"; "file1.pdf"]
     = Some ["file1.pdf"; "file٣.pdf"; "file10.pdf"].
Proof. vm_compute. split; reflexivity. Qed.

Example natural_sort_accents :
  natural_sort_key sample_python "Été.PDF"
  = natural_sort_key sample_python "été.pdf"
  /\ natural_sort sample_python ["été.pdf"; "Été.PDF"]
     = Some ["été.pdf"; "Été.PDF"]
  /\ natural_sort sample_python ["Été.PDF"; "été.pdf"]
     = Some ["Été.PDF"; "été.pdf"].
Proof. vm_compute. repeat split; reflexivity. Qed.

Example natural_sort_superscript :
  natural_sort_key sample_python "1²2.pdf" = None
  /\ natural_sort sample_python ["file2.pdf"; "1²2.pdf"; "file1.pdf"] = None.
Proof. vm_compute. split; reflexivity. Qed.

Example join_ex : Str.join "docs" "a.PDF" = "docs/a.PDF" /\ Str.join "docs/" "a.pdf" = "docs/a.pdf".
Proof. vm_compute. split; reflexivity. Qed.

Example basename_ex : Str.basename "x/y/a.pdf" = "a.pdf" /\ Str.basename "a.pdf" = "a.pdf".
Proof. vm_compute. split; reflexivity. Qed.

(** ** Facts about the stable sort *)

Section StableSortFacts.
Context {A : Type} (lt : A -> A -> bool).

Local Abbreviation le := (not_gt lt).

Hypothesis lt_asym : forall x y, lt x y = true -> lt y x = false.
Hypothesis not_gt_trans :
  forall x y z, le x y -> le y z -> le x z.

Lemma insert_sorted_perm x l : Permutation (insert_sorted lt x l) (x :: l).
Proof.
  induction l as [|y l IH]; simpl; [reflexivity|].
  destruct (lt y x); [|reflexivity].
  rewrite IH. apply perm_swap.
Qed.

Lemma stable_sort_perm l : Permutation (stable_sort lt l) l.
Proof.
  induction l as [|x l IH]; simpl; [reflexivity|].
  rewrite insert_sorted_perm. now constructor.
Qed.

Lemma insert_sorted_locally x l :
  Sorted le l -> Sorted le (insert_sorted lt x l).
Proof.
  induction 1 as [|y l Hs IH Hhd]; simpl.
  - repeat constructor.
  - destruct (lt y x) eqn:Hyx.
    + constructor; [exact IH|].
      destruct Hhd as [|z l Hyz]; simpl.
      * constructor. apply lt_asym, Hyx.
      * destruct (lt z x); constructor; [exact Hyz|apply lt_asym, Hyx].
    + constructor; [constructor; assumption|]. constructor. exact Hyx.
Qed.

Lemma stable_sort_locally l : Sorted le (stable_sort lt l).
Proof.
  induction l as [|x l IH]; simpl; [constructor|].
  now apply insert_sorted_locally.
Qed.

Lemma stable_sort_sorted l : StronglySorted le (stable_sort lt l).
Proof.
  apply Sorted_StronglySorted; [|apply stable_sort_locally].
  intros x y z. apply not_gt_trans.
Qed.

(** A list already in order is left as it is. *)
Lemma stable_sort_fixed l : Sorted le l -> stable_sort lt l = l.
Proof.
  induction 1 as [|x l Hs IH Hhd]; simpl; [reflexivity|].
  rewrite IH. destruct Hhd as [|y l Hxy]; simpl; [reflexivity|].
  unfold not_gt in Hxy. now rewrite Hxy.
Qed.

Lemma stable_sort_idem l :
  stable_sort lt (stable_sort lt l) = stable_sort lt l.
Proof. apply stable_sort_fixed, stable_sort_locally. Qed.

(** Sorting and dropping elements commute. *)
Lemma filter_insert_sorted (f : A -> bool) x l :
  StronglySorted le l ->
  List.filter f (insert_sorted lt x l)
  = if f x then insert_sorted lt x (List.filter f l) else List.filter f l.
Proof.
  induction 1 as [|y l Hs IH Hall]; simpl.
  - destruct (f x); reflexivity.
  - destruct (lt y x) eqn:Hyx; simpl.
    + rewrite IH. destruct (f y), (f x); simpl; rewrite ?Hyx; reflexivity.
    + destruct (f x); [|reflexivity]. f_equal.
      assert (Hfront : forall m, Forall (fun z => lt z x = false) m ->
                insert_sorted lt x m = x :: m).
      { intros m Hm. destruct Hm as [|z m Hz _]; simpl; [reflexivity|].
        now rewrite Hz. }
      symmetry.
      change (insert_sorted lt x (List.filter f (y :: l))
              = x :: List.filter f (y :: l)).
      apply Hfront.
      assert (Hge : Forall (fun z => lt z x = false) (y :: l)).
      { constructor; [exact Hyx|].
        eapply List.Forall_impl; [|exact Hall].
        intros z Hz. exact (not_gt_trans x y z Hyx Hz). }
      revert Hge. generalize (y :: l). intros m Hm.
      induction Hm as [|z m Hz Hm IHm]; simpl; [constructor|].
      destruct (f z); [constructor|]; assumption.
Qed.

Lemma filter_stable_sort (f : A -> bool) l :
  List.filter f (stable_sort lt l) = stable_sort lt (List.filter f l).
Proof.
  induction l as [|x l IH]; simpl; [reflexivity|].
  rewrite filter_insert_sorted by apply stable_sort_sorted.
  rewrite IH. destruct (f x); reflexivity.
Qed.

End StableSortFacts.

(** Two comparisons that agree on the elements of a list sort it alike. *)
Lemma insert_sorted_ext {A} (f g : A -> A -> bool) x l :
  (forall y, In y l -> f y x = g y x) ->
  insert_sorted f x l = insert_sorted g x l.
Proof.
  induction l as [|y l IH]; intros H; simpl; [reflexivity|].
  rewrite (H y) by now left. rewrite IH; [reflexivity|].
  intros z Hz. apply H. now right.
Qed.

Lemma insert_sorted_in {A} (f : A -> A -> bool) x l y :
  In y (insert_sorted f x l) <-> y = x \/ In y l.
Proof.
  induction l as [|z l IH]; simpl; [intuition congruence|].
  destruct (f z x); simpl; rewrite ?IH; intuition congruence.
Qed.

Lemma stable_sort_in {A} (f : A -> A -> bool) l y :
  In y (stable_sort f l) <-> In y l.
Proof.
  induction l as [|x l IH]; simpl; [tauto|].
  rewrite insert_sorted_in, IH. intuition congruence.
Qed.

Lemma stable_sort_ext {A} (f g : A -> A -> bool) l :
  (forall x y, In x l -> In y l -> f x y = g x y) ->
  stable_sort f l = stable_sort g l.
Proof.
  induction l as [|x l IH]; intros H; simpl; [reflexivity|].
  rewrite IH by (intros; apply H; now right).
  apply insert_sorted_ext. intros y Hy. apply stable_sort_in in Hy.
  apply H; [now right|now left].
Qed.

Lemma StronglySorted_ext {A} (R R' : A -> A -> Prop) l :
  (forall x y, In x l -> In y l -> R x y -> R' x y) ->
  StronglySorted R l -> StronglySorted R' l.
Proof.
  intros H Hs. induction Hs as [|x l Hs IH Hall]; constructor.
  - apply IH. intros; apply H; auto; now right.
  - rewrite List.Forall_forall in *. intros y Hy.
    apply H; [now left|now right|now apply Hall].
Qed.

Lemma Sorted_ext {A} (R R' : A -> A -> Prop) l :
  (forall x y, In x l -> In y l -> R x y -> R' x y) ->
  Sorted R l -> Sorted R' l.
Proof.
  intros H Hs. induction Hs as [|x l Hs IH Hhd]; constructor.
  - apply IH. intros; apply H; auto; now right.
  - destruct Hhd as [|y l Hxy]; constructor.
    apply H; [now left|right; now left|exact Hxy].
Qed.

(** ** The order on sort keys *)

Lemma part_cmp_eq x y : part_cmp x y = Eq <-> x = y.
Proof.
  destruct x as [a|a], y as [b|b]; simpl; try (split; discriminate).
  - rewrite N.compare_eq_iff. split; congruence.
  - rewrite String_as_OT.cmp_eq. split; congruence.
Qed.

Lemma part_cmp_antisym x y : part_cmp x y = CompOpp (part_cmp y x).
Proof.
  destruct x as [a|a], y as [b|b]; simpl; try reflexivity.
  - apply N.compare_antisym.
  - apply String_as_OT.cmp_antisym.
Qed.

Lemma part_cmp_trans x y z :
  part_cmp x y = Lt -> part_cmp y z = Lt -> part_cmp x z = Lt.
Proof.
  destruct x as [a|a], y as [b|b], z as [c|c]; simpl; try congruence.
  - rewrite !N.compare_lt_iff. lia.
  - rewrite !String_as_OT.cmp_lt. apply String_as_OT.lt_trans.
Qed.

Lemma key_cmp_eq a b : key_cmp a b = Eq <-> a = b.
Proof.
  revert b. induction a as [|x a IH]; intros [|y b]; simpl;
    try (split; [discriminate|congruence]); [tauto|].
  destruct (part_cmp x y) eqn:E.
  - apply part_cmp_eq in E. subst y. rewrite IH. split; congruence.
  - split; [discriminate|]. intros [= -> _].
    assert (part_cmp y y = Eq) by now apply part_cmp_eq. congruence.
  - split; [discriminate|]. intros [= -> _].
    assert (part_cmp y y = Eq) by now apply part_cmp_eq. congruence.
Qed.

Lemma key_cmp_antisym a b : key_cmp a b = CompOpp (key_cmp b a).
Proof.
  revert b. induction a as [|x a IH]; intros [|y b]; simpl; try reflexivity.
  rewrite (part_cmp_antisym x y).
  destruct (part_cmp y x); simpl; auto.
Qed.

Lemma key_cmp_trans a b c :
  key_cmp a b = Lt -> key_cmp b c = Lt -> key_cmp a c = Lt.
Proof.
  revert b c. induction a as [|x a IH]; intros [|y b] [|z c]; simpl;
    try congruence.
  destruct (part_cmp x y) eqn:Exy; try discriminate.
  - apply part_cmp_eq in Exy. subst y.
    destruct (part_cmp x z); try congruence. apply IH.
  - destruct (part_cmp y z) eqn:Eyz; try discriminate.
    + apply part_cmp_eq in Eyz. subst z. now rewrite Exy.
    + now rewrite (part_cmp_trans x y z Exy Eyz).
Qed.

Lemma key_cmp_not_gt_trans a b c :
  key_cmp a b <> Gt -> key_cmp b c <> Gt -> key_cmp a c <> Gt.
Proof.
  intros Hab Hbc.
  destruct (key_cmp a b) eqn:Eab; [| |congruence].
  - apply key_cmp_eq in Eab. now subst b.
  - destruct (key_cmp b c) eqn:Ebc; [| |congruence].
    + apply key_cmp_eq in Ebc. subst c. congruence.
    + rewrite (key_cmp_trans a b c Eab Ebc). discriminate.
Qed.

Lemma part_eqb_cmp x y : part_eqb x y = true <-> part_cmp x y = Eq.
Proof.
  rewrite part_cmp_eq.
  destruct x as [a|a], y as [b|b]; simpl; try (split; discriminate).
  - rewrite N.eqb_eq. split; congruence.
  - rewrite String.eqb_eq. split; congruence.
Qed.

(** On two keys of the same shape Python's comparison never raises, and it
    is the total comparison. *)
Lemma key_lt_cmp str_next a b :
  alternating str_next a = true -> alternating str_next b = true ->
  key_lt a b = Some (is_lt (key_cmp a b)).
Proof.
  revert str_next b. induction a as [|x a IH]; intros sn [|y b] Ha Hb;
    simpl; try reflexivity.
  destruct (part_eqb x y) eqn:Eeq.
  - apply part_eqb_cmp in Eeq as Ecmp. rewrite Ecmp.
    destruct x, y, sn; simpl in *; try discriminate; eauto.
  - assert (Hne : part_cmp x y <> Eq).
    { intros E. apply part_eqb_cmp in E. congruence. }
    destruct x as [n|s], y as [m|t], sn; simpl in *; try discriminate.
    + unfold N.ltb. destruct (n ?= m)%N; simpl; congruence.
    + unfold String.ltb. destruct (String.compare s t); simpl; congruence.
Qed.

(** ** The runs of a path *)

Lemma append_nil_l (s : string) : EmptyString +:+ s = s.
Proof. reflexivity. Qed.

Lemma append_cons c (s t : string) : String c s +:+ t = String c (s +:+ t).
Proof. reflexivity. Qed.

Lemma append_nil_r (s : string) : s +:+ EmptyString = s.
Proof.
  induction s as [|c s IH]; [reflexivity|]. now rewrite append_cons, IH.
Qed.

Lemma append_assoc (a b c : string) : (a +:+ b) +:+ c = a +:+ (b +:+ c).
Proof.
  induction a as [|x a IH]; [reflexivity|]. now rewrite !append_cons, IH.
Qed.

Lemma snoc_append cur c s : Str.snoc cur c +:+ s = cur +:+ String c s.
Proof. unfold Str.snoc. now rewrite append_assoc. Qed.

Lemma no_digit_append a b :
  Str.no_digit (a +:+ b) = Str.no_digit a && Str.no_digit b.
Proof.
  induction a as [|c a IH]; [reflexivity|].
  rewrite append_cons. simpl. now rewrite IH, andb_assoc.
Qed.

Lemma all_digits_append a b :
  Str.all_digits (a +:+ b) = Str.all_digits a && Str.all_digits b.
Proof.
  induction a as [|c a IH]; [reflexivity|].
  rewrite append_cons. simpl. now rewrite IH, andb_assoc.
Qed.

Lemma isdigit_snoc cur c :
  Str.isdigit cur = true -> Str.is_digit c = true ->
  Str.isdigit (Str.snoc cur c) = true.
Proof.
  destruct cur as [|d cur]; [discriminate|]. intros H Hc.
  unfold Str.snoc. rewrite append_cons.
  change (Str.all_digits (String d (cur +:+ String c "")) = true).
  rewrite <- append_cons, all_digits_append. simpl in *. now rewrite H, Hc.
Qed.

Lemma no_digit_not_isdigit r : Str.no_digit r = true -> Str.isdigit r = false.
Proof.
  destruct r as [|c r]; simpl; [reflexivity|].
  destruct (Str.is_digit c); simpl; [discriminate|reflexivity].
Qed.


Lemma split_runs_ok s : forall (b : bool) (cur : string),
  (if b then Str.isdigit cur else Str.no_digit cur) = true ->
  runs_ok (negb b) (Str.split_runs b cur s) = true.
Proof.
  induction s as [|c s IH]; intros b cur Hcur; simpl.
  - destruct b; simpl; now rewrite Hcur.
  - destruct (Str.is_digit c) eqn:Hc, b; simpl.
    + apply (IH true). now apply isdigit_snoc.
    + rewrite Hcur. apply (IH true). simpl. now rewrite Hc.
    + rewrite Hcur. apply (IH false). simpl. now rewrite Hc.
    + apply (IH false). unfold Str.snoc. rewrite no_digit_append. simpl.
      now rewrite Hcur, Hc.
Qed.

Lemma re_split_digits_ok s : runs_ok true (Str.re_split_digits s) = true.
Proof. apply (split_runs_ok s false). reflexivity. Qed.


Lemma all_some_spec {A} (l : list (option A)) xs :
  all_some l = Some xs <-> l = map Some xs.
Proof.
  revert xs. induction l as [|[x|] l IH]; intros xs; simpl.
  - split; [intros [= <-]; reflexivity|]. destruct xs; [reflexivity|discriminate].
  - destruct (all_some l) as [ys|] eqn:E.
    + split.
      * intros [= <-]. simpl. f_equal. now apply IH.
      * destruct xs as [|z zs]; [discriminate|]. simpl. intros [= -> H].
        apply IH in H. congruence.
    + split; [discriminate|]. destruct xs as [|z zs]; [discriminate|].
      simpl. intros [= -> H]. apply IH in H. discriminate.
  - split; [discriminate|]. destruct xs; discriminate.
Qed.

Lemma all_some_defined {A B} (f : A -> option B) l :
  (exists ys, all_some (map f l) = Some ys) <-> Forall (fun x => f x <> None) l.
Proof.
  induction l as [|x l IH]; simpl.
  - split; [constructor|eauto].
  - destruct (f x) as [y|] eqn:E.
    + destruct (all_some (map f l)) as [ys|].
      * split; [|eauto]. intros _. constructor; [congruence|]. apply IH. eauto.
      * split; [intros [? ?]; discriminate|].
        intros H. inversion H as [|? ? _ Hl]; subst. apply IH in Hl as [? ?].
        discriminate.
    + split; [intros [? ?]; discriminate|].
      intros H. inversion H; subst. congruence.
Qed.

Lemma all_some_none {A B} (f : A -> option B) l :
  all_some (map f l) = None <-> exists x, In x l /\ f x = None.
Proof.
  induction l as [|x l IH]; simpl.
  - split; [discriminate|]. intros (x & [] & _).
  - destruct (f x) as [y|] eqn:E.
    + destruct (all_some (map f l)) as [ys|].
      * split; [discriminate|]. intros (z & [<-|Hz] & Hn); [congruence|].
        destruct IH as [_ IH]. discriminate IH. eauto.
      * split; [|reflexivity]. intros _.
        destruct IH as [IH _]. destruct (IH eq_refl) as (z & Hz & Hn). eauto.
    + split; [|reflexivity]. intros _. exists x. auto.
Qed.

Lemma runs_alternating py runs : forall (b : bool) k,
  runs_ok b runs = true ->
  all_some (map (key_of_run py) runs) = Some k ->
  alternating b k = true.
Proof.
  induction runs as [|r runs IH]; intros b k; simpl.
  - intros Hb [= <-]. exact Hb.
  - intros [Hr Hrest]%andb_true_iff. unfold key_of_run at 1.
    destruct b; simpl in Hr.
    + rewrite (no_digit_not_isdigit r Hr).
      destruct (all_some _) as [ks|] eqn:E; [|discriminate].
      intros [= <-]. simpl. now apply (IH false).
    + rewrite Hr. destruct (too_long py r); [discriminate|].
      destruct (all_some _) as [ks|] eqn:E; [|discriminate].
      intros [= <-]. simpl. now apply (IH true).
Qed.

Lemma key_of_runs_alternating runs : alternating true (key_of_runs runs) = true.
Proof.
  destruct runs as [h t]. unfold key_of_runs. simpl.
  induction t as [|[n x] t IH]; simpl; [reflexivity|exact IH].
Qed.

(** A key always alternates strings and integers. *)
Lemma natural_sort_key_alternating py s k :
  natural_sort_key py s = Some k -> alternating true k = true.
Proof.
  unfold natural_sort_key, ascii_key, unicode_key.
  destruct (Str.all_ascii s).
  - apply runs_alternating, re_split_digits_ok.
  - destruct (unicode_runs py s); [|discriminate].
    intros [= <-]. apply key_of_runs_alternating.
Qed.

(** Comparing two keys never raises. *)
Lemma key_lt_natural py s t a b :
  natural_sort_key py s = Some a -> natural_sort_key py t = Some b ->
  key_lt a b = Some (is_lt (key_cmp a b)).
Proof.
  intros Ha Hb.
  apply (key_lt_cmp true); eapply natural_sort_key_alternating; eassumption.
Qed.

Lemma natural_lt_cmp py s t :
  natural_sort_key py s <> None -> natural_sort_key py t <> None ->
  natural_lt py s t = is_lt (path_cmp py s t).
Proof.
  unfold natural_lt, path_cmp. intros Hs Ht.
  destruct (natural_sort_key py s) as [a|] eqn:Ea; [|congruence].
  destruct (natural_sort_key py t) as [b|] eqn:Eb; [|congruence].
  now rewrite (key_lt_natural py s t a b Ea Eb).
Qed.

Lemma key_cmp_refl k : key_cmp k k = Eq.
Proof. now apply key_cmp_eq. Qed.

Lemma path_cmp_antisym py s t : path_cmp py s t = CompOpp (path_cmp py t s).
Proof.
  unfold path_cmp.
  destruct (natural_sort_key py s), (natural_sort_key py t); try reflexivity.
  apply key_cmp_antisym.
Qed.

Lemma path_cmp_eq py s t :
  path_cmp py s t = Eq <-> natural_sort_key py s = natural_sort_key py t.
Proof.
  unfold path_cmp.
  destruct (natural_sort_key py s), (natural_sort_key py t);
    try (split; [discriminate|congruence]); [|tauto].
  rewrite key_cmp_eq. split; congruence.
Qed.

Lemma path_cmp_trans py s t u :
  path_cmp py s t = Lt -> path_cmp py t u = Lt -> path_cmp py s u = Lt.
Proof.
  unfold path_cmp.
  destruct (natural_sort_key py s), (natural_sort_key py t),
    (natural_sort_key py u); try congruence.
  apply key_cmp_trans.
Qed.

Lemma path_lt_asym py s t : path_lt py s t = true -> path_lt py t s = false.
Proof.
  unfold path_lt. rewrite (path_cmp_antisym py t s).
  destruct (path_cmp py s t); simpl; congruence.
Qed.

Lemma path_not_gt_trans py s t u :
  not_gt (path_lt py) s t -> not_gt (path_lt py) t u -> not_gt (path_lt py) s u.
Proof.
  unfold not_gt, path_lt.
  rewrite (path_cmp_antisym py t s), (path_cmp_antisym py u t),
    (path_cmp_antisym py u s).
  destruct (path_cmp py s t) eqn:Est; simpl; try discriminate; intros _.
  - apply path_cmp_eq in Est. unfold path_cmp at 2. rewrite Est.
    fold (path_cmp py t u). destruct (path_cmp py t u); simpl; congruence.
  - destruct (path_cmp py t u) eqn:Etu; simpl; try discriminate; intros _.
    + apply path_cmp_eq in Etu. unfold path_cmp. rewrite <- Etu.
      fold (path_cmp py s t). now rewrite Est.
    + now rewrite (path_cmp_trans py s t u Est Etu).
Qed.

Lemma keys_defined_sort py l :
  keys_defined py l ->
  stable_sort (natural_lt py) l = stable_sort (path_lt py) l.
Proof.
  intros Hl. apply stable_sort_ext. intros x y Hx Hy.
  unfold keys_defined in Hl. rewrite List.Forall_forall in Hl.
  apply natural_lt_cmp; now apply Hl.
Qed.

Lemma natural_sort_some py l :
  keys_defined py l ->
  natural_sort py l = Some (stable_sort (path_lt py) l).
Proof.
  intros Hl. unfold natural_sort.
  destruct (proj2 (all_some_defined (natural_sort_key py) l) Hl) as [ks ->].
  now rewrite keys_defined_sort.
Qed.

Lemma natural_sort_defined py l order :
  natural_sort py l = Some order ->
  keys_defined py l /\ order = stable_sort (path_lt py) l.
Proof.
  unfold natural_sort.
  destruct (all_some (map (natural_sort_key py) l)) as [ks|] eqn:E;
    [|discriminate].
  intros [= <-].
  assert (Hl : keys_defined py l) by (apply all_some_defined; eauto).
  split; [exact Hl|now apply keys_defined_sort].
Qed.

(** The sort raises exactly when the key of some path does. *)
Lemma natural_sort_none py l :
  natural_sort py l = None <-> exists p, In p l /\ natural_sort_key py p = None.
Proof.
  unfold natural_sort. rewrite <- all_some_none.
  destruct (all_some (map (natural_sort_key py) l)); split; congruence.
Qed.

Lemma keys_defined_perm py l l' :
  Permutation l l' -> keys_defined py l -> keys_defined py l'.
Proof. intros H. unfold keys_defined. now rewrite H. Qed.

Lemma keys_defined_filter py f l :
  keys_defined py l -> keys_defined py (List.filter f l).
Proof.
  unfold keys_defined. rewrite !List.Forall_forall.
  intros H p Hp. apply filter_In in Hp as [Hp _]. now apply H.
Qed.

Lemma natural_sort_perm py l order :
  natural_sort py l = Some order -> Permutation order l.
Proof.
  intros (_ & ->)%natural_sort_defined. apply stable_sort_perm.
Qed.

Lemma natural_sort_sorted py l order :
  natural_sort py l = Some order ->
  StronglySorted (not_gt (natural_lt py)) order.
Proof.
  intros H. pose proof (natural_sort_perm py l order H) as Hperm.
  apply natural_sort_defined in H as (Hl & ->).
  apply (StronglySorted_ext (not_gt (path_lt py))).
  - intros x y Hx Hy. unfold not_gt.
    assert (Hd : keys_defined py (stable_sort (path_lt py) l))
      by (eapply keys_defined_perm; [symmetry; exact Hperm|exact Hl]).
    unfold keys_defined in Hd. rewrite List.Forall_forall in Hd.
    rewrite natural_lt_cmp by now apply Hd. trivial.
  - apply stable_sort_sorted; [apply path_lt_asym|apply path_not_gt_trans].
Qed.

Lemma natural_sort_idem py l order :
  natural_sort py l = Some order -> natural_sort py order = Some order.
Proof.
  intros H. pose proof (natural_sort_perm py l order H) as Hperm.
  apply natural_sort_defined in H as (Hl & ->).
  rewrite natural_sort_some
    by (eapply keys_defined_perm; [symmetry; exact Hperm|exact Hl]).
  f_equal. apply stable_sort_idem, path_lt_asym.
Qed.

Lemma natural_sort_filter py f l order :
  natural_sort py l = Some order ->
  natural_sort py (List.filter f l) = Some (List.filter f order).
Proof.
  intros (Hl & ->)%natural_sort_defined.
  rewrite natural_sort_some by now apply keys_defined_filter.
  f_equal. symmetry.
  apply filter_stable_sort; [apply path_lt_asym|apply path_not_gt_trans].
Qed.
(** ** The file system *)

Lemma fs_lookup_insert_eq (fs : file_system) (p : string) (n : node) :
  (<[p := n]> fs) !! p = Some n.
Proof.
  unfold lookup, file_system_lookup, insert, file_system_insert. simpl.
  apply lookup_insert_eq.
Qed.

Lemma fs_lookup_insert_ne (fs : file_system) (p q : string) (n : node) :
  resolve fs q <> resolve fs p -> (<[p := n]> fs) !! q = fs !! q.
Proof.
  intros H. unfold lookup, file_system_lookup, insert, file_system_insert.
  simpl. apply lookup_insert_ne. congruence.
Qed.

Lemma fs_insert_insert (fs : file_system) (p : string) (n m : node) :
  <[p := n]> (<[p := m]> fs) = <[p := n]> fs.
Proof.
  unfold insert, file_system_insert. simpl. f_equal. apply insert_insert_eq.
Qed.

(** ** One candidate *)

Ltac case_process :=
  unfold merged_in, document_pages, process, classify, decryption_fails,
    count_and_append, skip, called;
  repeat (simpl; match goal with
          | |- context [match ?x with _ => _ end] => destruct x eqn:?
          end);
  simpl in *; try congruence.

Lemma process_outcomes fs st p :
  outcomes (process fs st p) = outcomes st ++ [(p, classify fs p)].
Proof. case_process. Qed.

Lemma process_merger fs st p :
  merger (process fs st p)
  = merger st ++ (if merged_in fs p then document_pages fs p else []).
Proof. case_process; now rewrite ?app_nil_r. Qed.

Lemma process_processed fs st p :
  pdf_files_processed (process fs st p)
  = pdf_files_processed st ++ (if merged_in fs p then [Str.basename p] else []).
Proof. case_process; now rewrite ?app_nil_r. Qed.

Lemma process_total fs st p :
  total_pages_added (process fs st p)
  = total_pages_added st
    + length (if merged_in fs p then document_pages fs p else []).
Proof. case_process; lia. Qed.

Lemma process_calls fs st p :
  calls (process fs st p) = calls st ++ calls_for fs p.
Proof. unfold calls_for. case_process; now rewrite <- ?app_assoc, ?app_nil_r. Qed.

(** ** The loop *)

Lemma loop_outcomes fs l st :
  outcomes (loop fs l st) = outcomes st ++ outcomes_of fs l.
Proof.
  revert st. induction l as [|p l IH]; intros st; simpl.
  - now rewrite app_nil_r.
  - unfold loop in *. rewrite IH, process_outcomes, <- app_assoc. reflexivity.
Qed.

Lemma loop_merger fs l st :
  merger (loop fs l st) = merger st ++ pages_of fs l.
Proof.
  revert st. induction l as [|p l IH]; intros st; simpl.
  - unfold pages_of. simpl. now rewrite app_nil_r.
  - unfold loop in *. rewrite IH, process_merger, <- app_assoc.
    unfold pages_of. simpl. destruct (merged_in fs p); reflexivity.
Qed.

Lemma loop_processed fs l st :
  pdf_files_processed (loop fs l st)
  = pdf_files_processed st ++ map Str.basename (List.filter (merged_in fs) l).
Proof.
  revert st. induction l as [|p l IH]; intros st; simpl.
  - now rewrite app_nil_r.
  - unfold loop in *. rewrite IH, process_processed, <- app_assoc.
    destruct (merged_in fs p); reflexivity.
Qed.

Lemma loop_total fs l st :
  total_pages_added (loop fs l st)
  = total_pages_added st + length (pages_of fs l).
Proof.
  revert st. induction l as [|p l IH]; intros st; simpl.
  - unfold pages_of. simpl. lia.
  - unfold loop in *. rewrite IH, process_total.
    unfold pages_of. simpl. destruct (merged_in fs p); simpl.
    + rewrite length_app. lia.
    + lia.
Qed.

Lemma loop_calls fs l st :
  calls (loop fs l st) = calls st ++ concat (map (calls_for fs) l).
Proof.
  revert st. induction l as [|p l IH]; intros st; simpl.
  - now rewrite app_nil_r.
  - unfold loop in *. rewrite IH, process_calls, <- app_assoc. reflexivity.
Qed.

Lemma merged_paths_outcomes_of fs l :
  merged_paths (outcomes_of fs l) = List.filter (merged_in fs) l.
Proof.
  unfold merged_paths, outcomes_of, merged_in.
  induction l as [|p l IH]; simpl; [reflexivity|].
  destruct (is_merged (classify fs p)); simpl; now rewrite IH.
Qed.

Lemma fst_outcomes_of fs l : map fst (outcomes_of fs l) = l.
Proof.
  unfold outcomes_of. induction l as [|p l IH]; simpl; congruence.
Qed.

(** ** The order of processing *)

Lemma processing_order_perm py l s order :
  processing_order py l s = Some order -> Permutation order l.
Proof.
  destruct s; simpl; [apply natural_sort_perm|]. now intros [= <-].
Qed.

Lemma processing_order_filter py f l s order :
  processing_order py l s = Some order ->
  processing_order py (List.filter f l) s = Some (List.filter f order).
Proof.
  destruct s; simpl; [apply natural_sort_filter|]. now intros [= <-].
Qed.

Lemma processing_order_idem py l s order :
  processing_order py l s = Some order -> processing_order py order s = Some order.
Proof.
  destruct s; simpl; [apply natural_sort_idem|]. now intros [= <-].
Qed.

Lemma effective_order_some w l s order :
  processing_order (interpreter w) l s = Some order ->
  effective_order w l s = order.
Proof. unfold effective_order. now intros ->. Qed.

Lemma effective_order_unsorted w l : effective_order w l false = l.
Proof. reflexivity. Qed.

Lemma effective_order_in w l s p : In p (effective_order w l s) -> In p l.
Proof.
  unfold effective_order.
  destruct (processing_order (interpreter w) l s) as [order|] eqn:E;
    [|contradiction].
  apply Permutation_in. now apply (processing_order_perm (interpreter w) l s).
Qed.

(** ** The whole run *)

Lemma merge_pdfs_returns w l out s order :
  processing_order (interpreter w) l s = Some order ->
  merge_pdfs w l out s
  = finish w order out (loop (files w) order (called CPdfWriter initial)).
Proof. unfold merge_pdfs. now intros ->. Qed.

Lemma merge_pdfs_raises w l out s :
  processing_order (interpreter w) l s = None ->
  merge_pdfs w l out s
  = {| returned := false; raised := Some ValueError;
       locals := called CPdfWriter initial;
       input_paths_after := l; files_after := files w |}.
Proof. unfold merge_pdfs. now intros ->. Qed.

(** What the run keeps of the loop: the writing and closing calls change
    the call log only. *)
Lemma merge_pdfs_locals w l out s :
  let r := merge_pdfs w l out s in
  let st := loop (files w) (effective_order w l s) (called CPdfWriter initial) in
  outcomes (locals r) = outcomes st
  /\ merger (locals r) = merger st
  /\ pdf_files_processed (locals r) = pdf_files_processed st
  /\ total_pages_added (locals r) = total_pages_added st.
Proof.
  unfold merge_pdfs, effective_order. simpl.
  destruct (processing_order (interpreter w) l s) as [order|];
    [|simpl; tauto].
  unfold finish.
  destruct (pdf_files_processed _) eqn:E; [simpl; now rewrite ?E|].
  destruct (on_write w out); simpl; now rewrite ?E.
Qed.

Lemma merge_pdfs_paths_after w l out s :
  input_paths_after (merge_pdfs w l out s)
  = match processing_order (interpreter w) l s with
    | Some order => order
    | None => l
    end.
Proof.
  unfold merge_pdfs.
  destruct (processing_order (interpreter w) l s) as [order|];
    [|reflexivity].
  unfold finish. destruct (pdf_files_processed _); [reflexivity|].
  now destruct (on_write w out).
Qed.

Lemma merge_pdfs_raised w l out s :
  raised (merge_pdfs w l out s)
  = match processing_order (interpreter w) l s with
    | Some _ => None
    | None => Some ValueError
    end.
Proof.
  unfold merge_pdfs.
  destruct (processing_order (interpreter w) l s) as [order|];
    [|reflexivity].
  unfold finish. destruct (pdf_files_processed _); [reflexivity|].
  now destruct (on_write w out).
Qed.

Lemma merge_pdfs_outcomes w l out s :
  outcomes (locals (merge_pdfs w l out s))
  = outcomes_of (files w) (effective_order w l s).
Proof.
  destruct (merge_pdfs_locals w l out s) as (-> & _). now rewrite loop_outcomes.
Qed.

Lemma merge_pdfs_merger w l out s :
  merger (locals (merge_pdfs w l out s))
  = pages_of (files w) (effective_order w l s).
Proof.
  destruct (merge_pdfs_locals w l out s) as (_ & -> & _). now rewrite loop_merger.
Qed.

Lemma merge_pdfs_processed w l out s :
  pdf_files_processed (locals (merge_pdfs w l out s))
  = map Str.basename (List.filter (merged_in (files w)) (effective_order w l s)).
Proof.
  destruct (merge_pdfs_locals w l out s) as (_ & _ & -> & _).
  now rewrite loop_processed.
Qed.

Lemma merge_pdfs_total w l out s :
  total_pages_added (locals (merge_pdfs w l out s))
  = length (pages_of (files w) (effective_order w l s)).
Proof.
  destruct (merge_pdfs_locals w l out s) as (_ & _ & _ & ->).
  now rewrite loop_total.
Qed.

Lemma filter_filter_same {A} (f : A -> bool) l :
  List.filter f (List.filter f l) = List.filter f l.
Proof.
  induction l as [|x l IH]; simpl; [reflexivity|].
  destruct (f x) eqn:E; simpl; rewrite ?E; congruence.
Qed.

Lemma merged_paths_nil os : merged_paths os = [] <-> ~ some_merged os.
Proof.
  unfold merged_paths, some_merged. induction os as [|[p o] os IH]; simpl.
  - split; [intros _ (p & n & [])|reflexivity].
  - destruct o; simpl; try (split; [discriminate|intros H; exfalso; apply H; eauto]);
      rewrite IH; split.
    all: try (intros H (q & n & [Hq|Hq]); [discriminate|apply H; eauto]).
    all: intros H (q & n & Hq); apply H; eauto.
Qed.

Lemma classify_merged fs p n :
  classify fs p = Merged n -> n = length (document_pages fs p) /\ n <> 0.
Proof.
  unfold classify, document_pages.
  destruct (fs !! p) as [[| | |d]|]; try discriminate;
    destruct (negb _); try discriminate.
  destruct (decryption_fails d); [discriminate|].
  destruct (pages d) as [e|ps]; [discriminate|].
  destruct (Nat.eqb_spec (length ps) 0); [discriminate|].
  destruct (append_raises d); [discriminate|].
  intros [= <-]. split; [reflexivity|assumption].
Qed.

Lemma pages_of_merged_only fs l :
  pages_of fs (List.filter (merged_in fs) l) = pages_of fs l.
Proof. unfold pages_of. now rewrite filter_filter_same. Qed.

Lemma merged_paths_run w l out s :
  merged_paths (outcomes (locals (merge_pdfs w l out s)))
  = List.filter (merged_in (files w)) (effective_order w l s).
Proof. now rewrite merge_pdfs_outcomes, merged_paths_outcomes_of. Qed.

Lemma In_outcomes_of fs l p o :
  In (p, o) (outcomes_of fs l) <-> In p l /\ o = classify fs p.
Proof.
  unfold outcomes_of. rewrite in_map_iff. split.
  - intros (q & [= -> ->] & Hq). auto.
  - intros (Hp & ->). eauto.
Qed.

Lemma In_calls_for fs p c :
  In c (calls_for fs p) -> c = CDecrypt p "" \/ c = CAppend p.
Proof.
  unfold calls_for. case_process; intros H;
    repeat (destruct H as [<-|H]; auto); contradiction.
Qed.

Lemma merge_pdfs_calls w l out s :
  calls (locals (merge_pdfs w l out s))
  = CPdfWriter
    :: concat (map (calls_for (files w)) (effective_order w l s))
    ++ ending w l out s.
Proof.
  unfold merge_pdfs, effective_order, ending.
  destruct (processing_order (interpreter w) l s) as [order|];
    [|reflexivity].
  unfold finish, closing_calls, none_merged.
  pose proof (loop_processed (files w) order (called CPdfWriter initial)) as Hp.
  pose proof (loop_calls (files w) order (called CPdfWriter initial)) as Hc.
  simpl in Hp, Hc.
  destruct (List.filter _ _); simpl in Hp; rewrite Hp; simpl.
  - now rewrite Hc.
  - destruct (on_write w out); simpl; rewrite Hc; simpl;
      rewrite <- ?app_assoc; reflexivity.
Qed.

Lemma merge_pdfs_effect w l out s :
  let r := merge_pdfs w l out s in
  if none_merged (files w) (effective_order w l s)
  then returned r = false /\ files_after r = files w
  else match on_write w out with
       | WriteOk =>
           returned r = true
           /\ files_after r = <[out := written (merger (locals r))]> (files w)
       | OpenFails => returned r = false /\ files_after r = files w
       | WriteFails remains =>
           returned r = false /\ files_after r = <[out := remains]> (files w)
       end.
Proof.
  unfold merge_pdfs, effective_order.
  destruct (processing_order (interpreter w) l s) as [order|];
    [|simpl; tauto].
  unfold finish, none_merged.
  pose proof (loop_processed (files w) order (called CPdfWriter initial)) as Hp.
  simpl in Hp.
  destruct (List.filter _ _); simpl in Hp; rewrite Hp; simpl; [tauto|].
  destruct (on_write w out); simpl; tauto.
Qed.

Lemma none_merged_iff w l out s :
  none_merged (files w) (effective_order w l s) = true
  <-> ~ some_merged (outcomes (locals (merge_pdfs w l out s))).
Proof.
  rewrite <- merged_paths_nil, merged_paths_run. unfold none_merged.
  destruct (List.filter _ _); split; congruence.
Qed.

(** A run in which a candidate was merged did not raise, and ends with the
    calls on the output. *)
Lemma ending_merged w l out s :
  none_merged (files w) (effective_order w l s) = false ->
  ending w l out s = closing_calls w out false.
Proof.
  unfold ending, effective_order.
  destruct (processing_order (interpreter w) l s); [now intros ->|].
  discriminate.
Qed.


Lemma merge_pdfs_returned w l out s :
  returned (merge_pdfs w l out s)
  = negb (none_merged (files w) (effective_order w l s))
    && match on_write w out with WriteOk => true | _ => false end.
Proof.
  pose proof (merge_pdfs_effect w l out s) as H. simpl in H.
  destruct (none_merged _ _); [now destruct H|].
  destruct (on_write w out); now destruct H.
Qed.

Lemma classic_some_merged os : some_merged os \/ ~ some_merged os.
Proof.
  destruct (merged_paths os) eqn:E.
  - right. now apply merged_paths_nil.
  - left. unfold merged_paths in E.
    assert (Hin : In s (map fst (List.filter (fun po => is_merged (snd po)) os)))
      by (rewrite E; now left).
    apply in_map_iff in Hin as ([p o] & _ & Hpo).
    apply filter_In in Hpo as [Hpo Hm]. destruct o; try discriminate.
    exists p, page_count. exact Hpo.
Qed.

Lemma loop_calls_plain fs l :
  Forall (fun c => is_close c = false /\ touches_output c = false)
         (concat (map (calls_for fs) l)).
Proof.
  apply List.Forall_forall. intros c Hc.
  apply in_concat in Hc as (cs & Hcs & Hc).
  apply in_map_iff in Hcs as (p & <- & _).
  apply In_calls_for in Hc as [->| ->]; split; reflexivity.
Qed.


Lemma outcomes_of_filter fs (f : string -> bool) l :
  outcomes_of fs (List.filter f l)
  = List.filter (fun po => f (fst po)) (outcomes_of fs l).
Proof.
  unfold outcomes_of. induction l as [|p l IH]; simpl; [reflexivity|].
  destruct (f p); simpl; now rewrite IH.
Qed.

Lemma calls_for_decrypt fs p q pw :
  In (CDecrypt q pw) (calls_for fs p) ->
  q = p /\ pw = ""
  /\ exists d, fs !! p = Some (Pdf d) /\ is_encrypted d = true.
Proof.
  unfold calls_for. case_process; intros H;
    repeat (destruct H as [H|H]; try discriminate); try contradiction;
    injection H as <- <-; eauto.
Qed.

Lemma calls_for_encrypted fs p d :
  fs !! p = Some (Pdf d) -> Str.endswith (Str.lower p) ".pdf" = true ->
  is_encrypted d = true ->
  In (CDecrypt p "") (calls_for fs p)
  /\ (decrypt d "" <> None ->
        calls_for fs p = [CDecrypt p ""]
        /\ classify fs p = SkippedEncryptedUndecryptable).
Proof.
  intros Hp Hext Henc.
  unfold calls_for, process, classify, decryption_fails, count_and_append.
  rewrite Hp, Hext, Henc. simpl.
  destruct (decrypt d ""); simpl.
  - split; [now left|]. intros _. split; reflexivity.
  - split; [|congruence].
    destruct (pages d); simpl; [now left|].
    destruct (length l =? 0)%nat; simpl; [now left|].
    destruct (append_raises d); simpl; now left.
Qed.

Lemma filter_implied {A} (f g : A -> bool) l :
  (forall x, f x = true -> g x = true) ->
  List.filter f (List.filter g l) = List.filter f l.
Proof.
  intros Hfg. induction l as [|x l IH]; simpl; [reflexivity|].
  destruct (g x) eqn:Eg; simpl; rewrite IH; [reflexivity|].
  destruct (f x) eqn:Ef; [|reflexivity].
  rewrite (Hfg x Ef) in Eg. discriminate.
Qed.

Lemma pages_of_without fs bad l :
  merged_in fs bad = false ->
  pages_of fs (List.filter (other_than bad) l) = pages_of fs l.
Proof.
  intros Hbad. unfold pages_of. rewrite filter_implied; [reflexivity|].
  intros x Hx. unfold other_than.
  destruct (String.eqb_spec x bad) as [->|]; [congruence|reflexivity].
Qed.

(** ** Suffixes *)

Lemma length_append (a b : string) :
  String.length (a +:+ b) = String.length a + String.length b.
Proof.
  induction a as [|c a IH]; [reflexivity|].
  rewrite append_cons. simpl. now rewrite IH.
Qed.

Lemma substring_all (s : string) : String.substring 0 (String.length s) s = s.
Proof. induction s as [|c s IH]; simpl; congruence. Qed.

Lemma substring_skip (p t : string) :
  String.substring (String.length p) (String.length t) (p +:+ t) = t.
Proof.
  induction p as [|c p IH]; [apply substring_all|].
  rewrite append_cons. simpl. exact IH.
Qed.

Lemma substring_split (s : string) : forall n m,
  n + m = String.length s ->
  exists pre, s = pre +:+ String.substring n m s.
Proof.
  induction s as [|c s IH]; intros n m Hlen; simpl in Hlen.
  - exists EmptyString. destruct n, m; try discriminate. reflexivity.
  - destruct n as [|n].
    + exists EmptyString. simpl in Hlen. subst m.
      rewrite append_nil_l.
      change (String c s
              = String.substring 0 (String.length (String c s)) (String c s)).
      now rewrite substring_all.
    + destruct (IH n m) as [pre Hpre]; [simpl in Hlen; lia|].
      exists (String c pre). rewrite append_cons. simpl. now rewrite <- Hpre.
Qed.

Lemma endswith_spec (s suffix : string) :
  Str.endswith s suffix = true <-> exists pre, s = pre +:+ suffix.
Proof.
  unfold Str.endswith. rewrite andb_true_iff, Nat.leb_le, String.eqb_eq. split.
  - intros [Hlen Hsub].
    destruct (substring_split s (String.length s - String.length suffix)
                (String.length suffix)) as [pre Hpre]; [lia|].
    exists pre. now rewrite Hsub in Hpre.
  - intros [pre ->]. rewrite length_append. split; [lia|].
    replace (String.length pre + String.length suffix - String.length suffix)
      with (String.length pre) by lia.
    apply substring_skip.
Qed.

Lemma scan_entries d entries acc :
  fold_left
    (fun pdf_files filename =>
       if Str.endswith (Str.lower filename) ".pdf"
       then pdf_files ++ [Str.join d filename]
       else pdf_files)
    entries acc
  = acc ++ map (Str.join d) (List.filter is_pdf_name entries).
Proof.
  revert acc. induction entries as [|name entries IH]; intros acc; simpl.
  - now rewrite app_nil_r.
  - rewrite IH. unfold is_pdf_name.
    destruct (Str.endswith (Str.lower name) ".pdf"); simpl;
      now rewrite <- ?app_assoc.
Qed.

(** ** Running twice *)

Lemma process_agree fs fs' st p :
  fs !! p = fs' !! p -> process fs st p = process fs' st p.
Proof. unfold process. now intros ->. Qed.

Lemma loop_agree fs fs' l st :
  (forall p, In p l -> fs !! p = fs' !! p) -> loop fs l st = loop fs' l st.
Proof.
  revert st. induction l as [|p l IH]; intros st Hl; [reflexivity|].
  simpl. rewrite (process_agree fs fs' st p) by (apply Hl; now left).
  apply IH. intros q Hq. apply Hl. now right.
Qed.

Lemma files_after_elsewhere w order out st p :
  resolve (files w) p <> resolve (files w) out ->
  files_after (finish w order out st) !! p = files w !! p.
Proof.
  intros Hp. unfold finish.
  destruct (pdf_files_processed st); [reflexivity|].
  destruct (on_write w out); simpl; try reflexivity;
    now apply fs_lookup_insert_ne.
Qed.

Lemma finish_again w order out st :
  finish (world_after w (finish w order out st)) order out st
  = finish w order out st.
Proof.
  unfold finish, world_after.
  destruct (pdf_files_processed st); [reflexivity|].
  destruct (on_write w out) eqn:E; simpl; rewrite E; try reflexivity;
    now rewrite fs_insert_insert.
Qed.

Lemma rerun_same w l l' out s :
  output_apart w l out ->
  processing_order (interpreter w) l' s = processing_order (interpreter w) l s ->
  (processing_order (interpreter w) l s = None -> l' = l) ->
  merge_pdfs (world_after w (merge_pdfs w l out s)) l' out s
  = merge_pdfs w l out s.
Proof.
  intros Hout Hl' Hraise.
  destruct (processing_order (interpreter w) l s) as [order|] eqn:E.
  - rewrite (merge_pdfs_returns w l out s order E).
    rewrite (merge_pdfs_returns _ l' out s order) by exact Hl'.
    set (st := loop (files w) order (called CPdfWriter initial)).
    assert (Hst : loop (files (world_after w (finish w order out st))) order
                       (called CPdfWriter initial) = st).
    { apply loop_agree. intros p Hp. simpl. apply files_after_elsewhere.
      unfold output_apart in Hout. rewrite List.Forall_forall in Hout.
      apply Hout.
      now apply (Permutation_in _ (processing_order_perm _ _ _ _ E)). }
    rewrite Hst. apply finish_again.
  - rewrite (merge_pdfs_raises w l out s E), (Hraise eq_refl).
    now rewrite (merge_pdfs_raises _ l out s).
Qed.
(** ** Letter case and numbers in the key *)

Lemma lower_char_facts c :
  Str.is_digit (Str.lower_char c) = Str.is_digit c
  /\ Str.lower_char (Str.lower_char c) = Str.lower_char c
  /\ (Str.is_digit c = true -> Str.lower_char c = c)
  /\ (nat_of_ascii (Str.lower_char c) <? 128)%nat = (nat_of_ascii c <? 128)%nat.
Proof.
  destruct c as [[] [] [] [] [] [] [] []]; vm_compute; repeat split;
    congruence.
Qed.

Lemma lower_append a b : Str.lower (a +:+ b) = Str.lower a +:+ Str.lower b.
Proof.
  induction a as [|c a IH]; [reflexivity|].
  rewrite append_cons. simpl. now rewrite IH, append_cons.
Qed.

Lemma lower_idem s : Str.lower (Str.lower s) = Str.lower s.
Proof.
  induction s as [|c s IH]; simpl; [reflexivity|].
  destruct (lower_char_facts c) as (_ & -> & _). now rewrite IH.
Qed.

Lemma lower_digits s : Str.all_digits s = true -> Str.lower s = s.
Proof.
  induction s as [|c s IH]; simpl; [reflexivity|].
  intros [Hc Hs]%andb_true_iff.
  destruct (lower_char_facts c) as (_ & _ & Hl & _). now rewrite Hl, IH.
Qed.

Lemma all_digits_lower s : Str.all_digits (Str.lower s) = Str.all_digits s.
Proof.
  induction s as [|c s IH]; simpl; [reflexivity|].
  destruct (lower_char_facts c) as (-> & _). now rewrite IH.
Qed.

Lemma length_lower s : String.length (Str.lower s) = String.length s.
Proof. induction s as [|c s IH]; simpl; congruence. Qed.

Lemma all_ascii_lower s : Str.all_ascii (Str.lower s) = Str.all_ascii s.
Proof.
  induction s as [|c s IH]; simpl; [reflexivity|].
  destruct (lower_char_facts c) as (_ & _ & _ & ->). now rewrite IH.
Qed.

Lemma key_of_run_lower py r : key_of_run py (Str.lower r) = key_of_run py r.
Proof.
  unfold key_of_run, too_long.
  assert (Hd : Str.isdigit (Str.lower r) = Str.isdigit r).
  { destruct r as [|c r]; [reflexivity|].
    change (Str.all_digits (Str.lower (String c r))
            = Str.all_digits (String c r)).
    apply all_digits_lower. }
  rewrite Hd, lower_idem, length_lower.
  destruct (Str.isdigit r) eqn:E; [|reflexivity].
  rewrite lower_digits; [reflexivity|]. now destruct r.
Qed.

Lemma split_runs_lower s : forall b cur,
  Str.split_runs b (Str.lower cur) (Str.lower s)
  = map Str.lower (Str.split_runs b cur s).
Proof.
  induction s as [|c s IH]; intros b cur; simpl.
  - now destruct b.
  - destruct (lower_char_facts c) as (-> & _).
    assert (Hsnoc : Str.snoc (Str.lower cur) (Str.lower_char c)
                    = Str.lower (Str.snoc cur c)).
    { unfold Str.snoc. now rewrite lower_append. }
    destruct (Str.is_digit c), b; simpl; rewrite ?Hsnoc, ?IH;
      try reflexivity; f_equal; apply (IH _ (String c EmptyString)).
Qed.

Lemma ascii_key_lower py s : ascii_key py (Str.lower s) = ascii_key py s.
Proof.
  unfold ascii_key, Str.re_split_digits.
  change EmptyString with (Str.lower EmptyString) at 1.
  rewrite split_runs_lower, map_map. f_equal.
  apply map_ext. intros r. apply key_of_run_lower.
Qed.

Lemma natural_sort_key_lower py s :
  Str.all_ascii s = true ->
  natural_sort_key py (Str.lower s) = natural_sort_key py s.
Proof.
  intros Hs. unfold natural_sort_key.
  now rewrite all_ascii_lower, Hs, ascii_key_lower.
Qed.

Lemma natural_sort_key_same_lower py s t :
  Str.all_ascii s = true -> Str.lower s = Str.lower t ->
  natural_sort_key py s = natural_sort_key py t.
Proof.
  intros Hs H.
  assert (Ht : Str.all_ascii t = true)
    by now rewrite <- all_ascii_lower, <- H, all_ascii_lower.
  now rewrite <- (natural_sort_key_lower py s Hs), H, natural_sort_key_lower.
Qed.



Lemma all_ascii_append a b :
  Str.all_ascii (a +:+ b) = Str.all_ascii a && Str.all_ascii b.
Proof.
  induction a as [|c a IH]; [reflexivity|].
  rewrite append_cons. simpl. now rewrite IH, andb_assoc.
Qed.






(** ** Sample runs *)

(** The code discards what [reader.decrypt('')] returns: a document for
    which the call returns and whose pages then cannot be read falls under
    the [except] clauses, like any unreadable document. *)
Lemma decrypt_returning_then_unreadable fs p d e :
  fs !! p = Some (Pdf d) -> Str.endswith (Str.lower p) ".pdf" = true ->
  is_encrypted d = true -> decrypt d "" = None -> pages d = inl e ->
  classify fs p = SkippedUnexpectedError e
  /\ calls_for fs p = [CDecrypt p ""].
Proof.
  intros Hp Hext Henc Hdec Hpages.
  unfold classify, calls_for, process, count_and_append, decryption_fails.
  now rewrite Hp, Hext, Henc, Hdec, Hpages.
Qed.

(** A document encrypted with the empty password is merged like any
    other. *)
Example merge_unlocked :
  let w := {| files := <["u.pdf" := unlocked ["u1"] ]> ∅;
              on_write := fun _ => WriteOk;
              interpreter := sample_python |} in
  let r := merge_pdfs w ["u.pdf"] "out.pdf" false in
  outcomes (locals r) = [("u.pdf", Merged 1)]
  /\ calls (locals r)
     = [CPdfWriter; CDecrypt "u.pdf" ""; CAppend "u.pdf";
        COpenOutput "out.pdf"; CWrite "out.pdf"; CClose]
  /\ returned r = true.
Proof. vm_compute. repeat split; reflexivity. Qed.

(** The PDFs of a directory, merged in the order of its listing. *)
Example merge_directory :
  let w := sample WriteOk in
  match find_pdfs_in_directory w "docs" with
  | inr input_files =>
      let r := merge_pdfs w input_files "merged_output.pdf" false in
      returned r = true
      /\ total_pages_added (locals r) = 5
      /\ pdf_files_processed (locals r) = ["a.pdf"; "B.PDF"]
      /\ merger (locals r) = ["a1"; "a2"; "b1"; "b2"; "b3"]
  | inl _ => False
  end.
Proof. vm_compute. repeat split; reflexivity. Qed.

(** A run over good and bad candidates. *)
Example merge_mixed :
  let r := merge_pdfs (sample WriteOk)
             ["file10.pdf"; "nope.pdf"; "file3.pdf"; "file2.pdf";
              "docs/notes.txt"; "file1.pdf"; "empty.pdf"; "broken.pdf";
              "docs"]
             "out.pdf" true in
  raised r = None
  /\ outcomes (locals r)
     = [("broken.pdf", SkippedUnexpectedError PdfReadError);
        ("docs", SkippedNotPdf); ("docs/notes.txt", SkippedNotPdf);
        ("empty.pdf", SkippedEmptyOrCorrupt); ("file1.pdf", Merged 1);
        ("file2.pdf", SkippedUnexpectedError PdfReadError);
        ("file3.pdf", SkippedEncryptedUndecryptable);
        ("file10.pdf", Merged 2); ("nope.pdf", SkippedNotFound)]
  /\ merger (locals r) = ["p1"; "r1"; "r2"]
  /\ pdf_files_processed (locals r) = ["file1.pdf"; "file10.pdf"].
Proof. vm_compute. repeat split; reflexivity. Qed.

(** A name whose key raises ends a sorted run at line 32, be it for a
    superscript digit or for a run of digits beyond the limit of [int];
    without sorting the same list is gone through. *)
Example merge_superscript :
  let l := ["file1.pdf"; "1²2.pdf"] in
  let sorted := merge_pdfs (sample WriteOk) l "out.pdf" true in
  let unsorted := merge_pdfs (sample WriteOk) l "out.pdf" false in
  raised sorted = Some ValueError
  /\ outcomes (locals sorted) = []
  /\ calls (locals sorted) = [CPdfWriter]
  /\ files_after sorted = sample_files
  /\ raised unsorted = None
  /\ returned unsorted = true
  /\ outcomes (locals unsorted)
     = [("file1.pdf", Merged 1); ("1²2.pdf", SkippedNotFound)].
Proof. vm_compute. repeat split; reflexivity. Qed.

Example merge_long_number :
  let l := ["file1.pdf"; long_number] in
  let sorted := merge_pdfs (sample WriteOk) l "out.pdf" true in
  let unsorted := merge_pdfs (sample WriteOk) l "out.pdf" false in
  raised sorted = Some ValueError
  /\ outcomes (locals sorted) = []
  /\ calls (locals sorted) = [CPdfWriter]
  /\ raised unsorted = None
  /\ returned unsorted = true
  /\ outcomes (locals unsorted)
     = [("file1.pdf", Merged 1); (long_number, SkippedNotFound)].
Proof. vm_compute. repeat split; reflexivity. Qed.

(** ** The properties of the specification *)

(** C1: the pages held by the writer, and written to the output, are the
    pages of the files whose outcome is [Merged], file after file in the
    order of processing, each file's pages in document order.  The order of
    processing is the input order, or with [sort_files] the order the sort
    of line 32 leaves: a rearrangement of the input in which no path comes
    before one with a smaller key, the keys being those of the interpreter
    the run has, also for paths that are not ASCII.  (When that sort raises
    there is neither an outcome nor a page.)  Leaving the skipped files out
    of the input changes nothing in the page sequence. *)
Theorem merged_pages_follow_input_order
    (w : world) (input_paths : list string) (output_path : string)
    (sort_files : bool) :
  let r := merge_pdfs w input_paths output_path sort_files in
  let os := outcomes (locals r) in
  (forall order,
     processing_order (interpreter w) input_paths sort_files = Some order ->
     map fst os = order
     /\ Permutation order input_paths
     /\ (sort_files = false -> order = input_paths)
     /\ (sort_files = true ->
           StronglySorted (not_gt (natural_lt (interpreter w))) order))
  /\ (processing_order (interpreter w) input_paths sort_files = None ->
        os = [] /\ merger (locals r) = [] /\ files_after r = files w)
  /\ merger (locals r)
     = concat (map (document_pages (files w)) (merged_paths os))
  /\ (forall p n, In (p, Merged n) os ->
        n = length (document_pages (files w) p) /\ n <> 0)
  /\ total_pages_added (locals r) = length (merger (locals r))
  /\ (returned r = true ->
        files_after r !! output_path = Some (written (merger (locals r))))
  /\ merger (locals (merge_pdfs w (merged_paths os) output_path sort_files))
     = merger (locals r).
Proof.
  intros r os. subst os r.
  pose proof (merge_pdfs_effect w input_paths output_path sort_files) as Heff.
  simpl in Heff.
  rewrite merged_paths_run, merge_pdfs_outcomes, fst_outcomes_of.
  split; [|split; [|split; [|split; [|split; [|split]]]]].
  - intros order Horder. rewrite (effective_order_some _ _ _ _ Horder).
    split; [reflexivity|].
    split; [exact (processing_order_perm _ _ _ _ Horder)|]. split.
    + intros ->. simpl in Horder. now injection Horder.
    + intros ->. simpl in Horder. now apply natural_sort_sorted with input_paths.
  - intros Hnone. rewrite merge_pdfs_merger.
    rewrite (merge_pdfs_raises _ _ _ _ Hnone).
    unfold effective_order. rewrite Hnone. repeat split; reflexivity.
  - apply merge_pdfs_merger.
  - intros p n [_ Hn]%In_outcomes_of. now apply classify_merged.
  - now rewrite merge_pdfs_total, merge_pdfs_merger.
  - intros Hret.
    destruct (none_merged _ _); [destruct Heff; congruence|].
    destruct (on_write w output_path); destruct Heff as [Hr Hf];
      try congruence.
    rewrite Hf. apply fs_lookup_insert_eq.
  - rewrite !merge_pdfs_merger.
    unfold effective_order at 2 3.
    destruct (processing_order (interpreter w) input_paths sort_files)
      as [order|] eqn:Horder.
    + pose proof (processing_order_idem _ _ _ _ Horder) as Hidem.
      pose proof (processing_order_filter _ (merged_in (files w)) _ _ _ Hidem)
        as Hfilter.
      unfold effective_order. rewrite Hfilter.
      apply pages_of_merged_only.
    + simpl. unfold effective_order.
      now destruct sort_files.
Qed.



Lemma natural_lt_same_key py s t :
  natural_sort_key py s = natural_sort_key py t -> natural_lt py s t = false.
Proof.
  intros H. unfold natural_lt. rewrite H.
  destruct (natural_sort_key py t) as [k|] eqn:E; [|reflexivity].
  now rewrite (key_lt_natural py t t k k E E), key_cmp_refl.
Qed.


(** C4 fails on the code for a document that needs a password: only the
    empty password is passed to [decrypt], and only for the encrypted
    documents; the outcome [SkippedEncryptedUndecryptable] is given exactly
    when that call raises.  When the call returns having decrypted nothing
    (the library's answer to a wrong password), its result is not looked
    at, the pages are counted, and the exception of line 59 makes the
    outcome that of an unreadable file: [locked] at file2.pdf. *)
Theorem wrong_password_is_reported_as_unreadable
    (w : world) (input_paths : list string) (output_path : string)
    (sort_files : bool) :
  let r := merge_pdfs w input_paths output_path sort_files in
  (forall q pw, In (CDecrypt q pw) (calls (locals r)) ->
     pw = "" /\ In q input_paths
     /\ exists d, files w !! q = Some (Pdf d) /\ is_encrypted d = true)
  /\ (forall p,
        In (p, SkippedEncryptedUndecryptable) (outcomes (locals r))
        <-> In p (effective_order w input_paths sort_files)
            /\ Str.endswith (Str.lower p) ".pdf" = true
            /\ exists d, files w !! p = Some (Pdf d)
                         /\ is_encrypted d = true /\ decrypt d "" <> None)
  /\ (forall p d e,
        In p (effective_order w input_paths sort_files) ->
        files w !! p = Some (Pdf d) ->
        Str.endswith (Str.lower p) ".pdf" = true ->
        is_encrypted d = true -> decrypt d "" = None -> pages d = inl e ->
        In (p, SkippedUnexpectedError e) (outcomes (locals r))
        /\ ~ In (p, SkippedEncryptedUndecryptable) (outcomes (locals r)))
  /\ (let r2 := merge_pdfs (sample WriteOk) ["file2.pdf"] "out.pdf" false in
      sample_files !! "file2.pdf" = Some locked
      /\ outcomes (locals r2)
         = [("file2.pdf", SkippedUnexpectedError PdfReadError)]
      /\ calls (locals r2) = [CPdfWriter; CDecrypt "file2.pdf" ""; CClose]).
Proof.
  intros r. subst r. rewrite merge_pdfs_calls, merge_pdfs_outcomes.
  split; [|split; [|split]].
  - intros q pw [Hin|[Hin|Hin]%in_app_or]; [discriminate| |].
    + apply in_concat in Hin as (cs & Hcs & Hin).
      apply in_map_iff in Hcs as (p & <- & Hp).
      apply calls_for_decrypt in Hin as (-> & -> & Hd).
      split; [reflexivity|]. split; [|exact Hd].
      now apply effective_order_in in Hp.
    + exfalso. unfold ending, closing_calls in Hin.
      destruct (processing_order _ _ _); [|destruct Hin].
      destruct (none_merged _ _).
      * destruct Hin as [Hin|[]]. discriminate.
      * destruct (on_write w output_path); simpl in Hin;
          repeat (destruct Hin as [Hin|Hin]; try discriminate);
          contradiction.
  - intros p. rewrite In_outcomes_of. split.
    + intros [Hp Hc]. split; [exact Hp|]. symmetry in Hc.
      unfold classify, decryption_fails in Hc.
      destruct (files w !! p) as [n|]; [|discriminate].
      destruct (Str.endswith (Str.lower p) ".pdf"); [|discriminate].
      split; [reflexivity|]. simpl in Hc.
      destruct n as [| | |d]; try discriminate. exists d.
      destruct (is_encrypted d); simpl in Hc.
      * destruct (decrypt d "") eqn:Hd.
        -- repeat split; congruence.
        -- exfalso. destruct (pages d); [discriminate|].
           destruct (length l =? 0)%nat; [discriminate|].
           destruct (append_raises d); discriminate.
      * exfalso. destruct (pages d); [discriminate|].
        destruct (length l =? 0)%nat; [discriminate|].
        destruct (append_raises d); discriminate.
    + intros (Hp & Hext & d & Hd & Henc & Hdec). split; [exact Hp|].
      unfold classify, decryption_fails. rewrite Hd, Hext, Henc. simpl.
      destruct (decrypt d ""); [reflexivity|congruence].
  - intros p d e Hp Hd Hext Henc Hdec Hpages.
    destruct (decrypt_returning_then_unreadable (files w) p d e
                Hd Hext Henc Hdec Hpages) as [Hc _].
    rewrite !In_outcomes_of, Hc. split; [now split|].
    intros [_ H]. discriminate H.
  - vm_compute. repeat split; reflexivity.
Qed.

(** C5 fails on the code when the list is sorted: the sort of line 32 is
    outside every [try], so one path whose key raises ends the whole call
    before any candidate is looked at, whatever the other candidates are.
    When the call does not raise, every candidate gets the outcome the
    checks give for that candidate alone, tried in the order existence,
    extension, parsing, encryption, page count, and taking a file out of
    the input leaves the outcomes of the others as they were. *)
Theorem one_bad_name_aborts_a_sorted_run
    (w : world) (input_paths : list string) (output_path : string)
    (sort_files : bool) :
  let fs := files w in
  let r := merge_pdfs w input_paths output_path sort_files in
  (forall bad,
     sort_files = true -> In bad input_paths ->
     natural_sort_key (interpreter w) bad = None ->
     raised r = Some ValueError /\ returned r = false
     /\ outcomes (locals r) = [] /\ files_after r = fs)
  /\ (raised r = None ->
        exists order,
          processing_order (interpreter w) input_paths sort_files = Some order
          /\ outcomes (locals r) = map (fun p => (p, classify fs p)) order
          /\ length (outcomes (locals r)) = length input_paths
          /\ forall bad,
               outcomes (locals (merge_pdfs w
                                   (List.filter (other_than bad) input_paths)
                                   output_path sort_files))
               = List.filter (fun po => other_than bad (fst po))
                             (outcomes (locals r)))
  /\ (forall p,
        (fs !! p = None -> classify fs p = SkippedNotFound)
        /\ (fs !! p <> None -> Str.endswith (Str.lower p) ".pdf" = false ->
              classify fs p = SkippedNotPdf)
        /\ (forall e, fs !! p = Some (Unparseable e) ->
              Str.endswith (Str.lower p) ".pdf" = true ->
              classify fs p = SkippedUnexpectedError e)
        /\ (forall d, fs !! p = Some (Pdf d) ->
              Str.endswith (Str.lower p) ".pdf" = true ->
              is_encrypted d = true -> decrypt d "" <> None ->
              classify fs p = SkippedEncryptedUndecryptable)
        /\ (forall d, fs !! p = Some (Pdf d) ->
              Str.endswith (Str.lower p) ".pdf" = true ->
              decryption_fails d = false -> pages d = inr [] ->
              classify fs p = SkippedEmptyOrCorrupt))
  /\ (let l := ["file1.pdf"; "1²2.pdf"] in
      let sorted := merge_pdfs (sample WriteOk) l "out.pdf" true in
      let unsorted := merge_pdfs (sample WriteOk) l "out.pdf" false in
      outcomes (locals unsorted)
      = [("file1.pdf", Merged 1); ("1²2.pdf", SkippedNotFound)]
      /\ returned unsorted = true
      /\ raised sorted = Some ValueError
      /\ outcomes (locals sorted) = []
      /\ files_after sorted !! "out.pdf" = None).
Proof.
  intros fs r. subst fs r. split; [|split; [|split]].
  - intros bad -> Hbad Hkey.
    assert (Hnone : processing_order (interpreter w) input_paths true = None).
    { simpl. apply natural_sort_none. now exists bad. }
    rewrite (merge_pdfs_raises w input_paths output_path true Hnone).
    repeat split; reflexivity.
  - intros Hraised. rewrite merge_pdfs_raised in Hraised.
    destruct (processing_order (interpreter w) input_paths sort_files)
      as [order|] eqn:Horder; [|discriminate].
    exists order. split; [reflexivity|].
    rewrite merge_pdfs_outcomes, (effective_order_some _ _ _ _ Horder).
    split; [reflexivity|]. split.
    + unfold outcomes_of. rewrite length_map.
      apply Permutation_length. exact (processing_order_perm _ _ _ _ Horder).
    + intros bad. rewrite merge_pdfs_outcomes.
      rewrite (effective_order_some _ _ _ _
                 (processing_order_filter _ (other_than bad) _ _ _ Horder)).
      apply outcomes_of_filter.
  - intros p. unfold classify, decryption_fails. repeat split.
    + now intros ->.
    + intros Hex Hext. destruct (files w !! p); [|congruence].
      now rewrite Hext.
    + intros e -> ->. reflexivity.
    + intros d -> -> -> Hd. simpl.
      destruct (decrypt d ""); [reflexivity|congruence].
    + intros d -> -> Hd ->. simpl. unfold decryption_fails in Hd.
      now rewrite Hd.
  - vm_compute. repeat split; reflexivity.
Qed.

(** C6 fails on the code when the sort of line 32 raises: the writer made
    at line 24 is then never closed.  On every run that returns, whatever
    the inputs and however the write goes, the writer is closed once, and
    the closing call is the last call made. *)
Theorem writer_is_not_closed_when_the_sort_raises
    (w : world) (input_paths : list string) (output_path : string)
    (sort_files : bool) :
  let r := merge_pdfs w input_paths output_path sort_files in
  let cs := calls (locals r) in
  (exists rest,
     cs = CPdfWriter :: rest /\ ~ In CPdfWriter rest)
  /\ (raised r = None ->
        length (List.filter is_close cs) = 1
        /\ exists before,
             cs = before ++ [CClose]
             /\ Forall (fun c => is_close c = false) before)
  /\ (raised r <> None ->
        sort_files = true /\ cs = [CPdfWriter]
        /\ List.filter is_close cs = [])
  /\ (let r1 := merge_pdfs (sample WriteOk) ["file1.pdf"; "1²2.pdf"]
                           "out.pdf" true in
      raised r1 = Some ValueError /\ calls (locals r1) = [CPdfWriter]).
Proof.
  intros r cs. subst cs r. rewrite merge_pdfs_calls, merge_pdfs_raised.
  pose proof (loop_calls_plain (files w)
                (effective_order w input_paths sort_files)) as Hplain.
  set (body := concat (map (calls_for (files w))
                           (effective_order w input_paths sort_files))) in *.
  assert (Hbody : Forall (fun c => is_close c = false) body).
  { eapply List.Forall_impl; [|exact Hplain]. now intros c [Hc _]. }
  assert (Hnil : List.filter is_close body = []).
  { clear Hplain. induction Hbody as [|c cs Hc _ IH]; simpl; [reflexivity|].
    now rewrite Hc. }
  assert (Hwriter : ~ In CPdfWriter body).
  { intros Hin. apply in_concat in Hin as (cs & Hcs & Hin).
    apply in_map_iff in Hcs as (p & <- & _).
    apply In_calls_for in Hin as [Hin|Hin]; discriminate. }
  split; [|split; [|split]].
  - eexists. split; [reflexivity|].
    intros [Hin|Hin]%in_app_or; [contradiction|].
    unfold ending, closing_calls in Hin.
    destruct (processing_order _ _ _); [|destruct Hin].
    destruct (none_merged _ _).
    + destruct Hin as [Hin|[]]. discriminate.
    + destruct (on_write w output_path); simpl in Hin;
        repeat (destruct Hin as [Hin|Hin]; try discriminate); contradiction.
  - unfold ending.
    destruct (processing_order (interpreter w) input_paths sort_files)
      as [order|]; [intros _|discriminate].
    split.
    + simpl. rewrite List.filter_app, Hnil. unfold closing_calls.
      destruct (none_merged _ _); [reflexivity|].
      destruct (on_write w output_path); reflexivity.
    + unfold closing_calls. destruct (none_merged _ _).
      * exists (CPdfWriter :: body). split; [reflexivity|].
        constructor; [reflexivity|exact Hbody].
      * destruct (on_write w output_path).
        -- exists (CPdfWriter
                   :: body ++ [COpenOutput output_path; CWrite output_path]).
           split; [simpl; now rewrite <- app_assoc|].
           constructor; [reflexivity|].
           apply Forall_app; split; [exact Hbody|repeat constructor].
        -- exists (CPdfWriter :: body ++ [COpenOutput output_path]).
           split; [simpl; now rewrite <- app_assoc|].
           constructor; [reflexivity|].
           apply Forall_app; split; [exact Hbody|repeat constructor].
        -- exists (CPdfWriter
                   :: body ++ [COpenOutput output_path; CWrite output_path]).
           split; [simpl; now rewrite <- app_assoc|].
           constructor; [reflexivity|].
           apply Forall_app; split; [exact Hbody|repeat constructor].
  - subst body. unfold ending, effective_order.
    destruct (processing_order (interpreter w) input_paths sort_files)
      as [order|] eqn:Horder; [congruence|intros _].
    split; [|split; reflexivity].
    destruct sort_files; [reflexivity|discriminate].
  - vm_compute. repeat split; reflexivity.
Qed.

(** C7: on a directory the result is, in the order of the listing, the
    path of each immediate entry whose name ends in ".pdf" in any letter
    case, and nothing else; what lies elsewhere in the file system, inside
    sub-directories included, plays no part; on anything that is not a
    directory the function exits with status 1. *)
Theorem find_pdfs_in_directory_lists_immediate_pdfs
    (w : world) (directory_path : string) :
  (forall entries, files w !! directory_path = Some (Dir entries) ->
     find_pdfs_in_directory w directory_path
     = inr (map (Str.join directory_path) (List.filter is_pdf_name entries)))
  /\ ((forall entries, files w !! directory_path <> Some (Dir entries)) ->
        find_pdfs_in_directory w directory_path = inl (SystemExit 1))
  /\ (forall name,
        is_pdf_name name = true
        <-> exists stem, Str.lower name = stem +:+ ".pdf")
  /\ (forall w', files w' !! directory_path = files w !! directory_path ->
        find_pdfs_in_directory w' directory_path
        = find_pdfs_in_directory w directory_path)
  /\ find_pdfs_in_directory (sample WriteOk) "docs"
     = inr ["docs/a.pdf"; "docs/B.PDF"].
Proof.
  unfold find_pdfs_in_directory. split; [|split; [|split; [|split]]].
  - intros entries ->. now rewrite scan_entries.
  - intros Hnot. destruct (files w !! directory_path) as [[entries| | |]|];
      try reflexivity.
    now destruct (Hnot entries).
  - intros name. apply endswith_spec.
  - now intros w' ->.
  - vm_compute. reflexivity.
Qed.

(** C8, as amended: when the output names the same file as none of the
    input paths, under whatever spelling, a second run with sorting, on the
    list the first run left or on the list as it first was, does what the
    first did: same outcomes, same page sequence, same result, same file
    system. *)
Theorem rerun_with_sorting_is_idempotent
    (w : world) (input_paths : list string) (output_path : string) :
  output_apart w input_paths output_path ->
  let r1 := merge_pdfs w input_paths output_path true in
  merge_pdfs (world_after w r1) (input_paths_after r1) output_path true = r1
  /\ merge_pdfs (world_after w r1) input_paths output_path true = r1.
Proof.
  intros Hout r1. subst r1. split.
  - rewrite merge_pdfs_paths_after.
    destruct (processing_order (interpreter w) input_paths true)
      as [order|] eqn:Horder.
    + apply rerun_same; [exact Hout| |congruence].
      rewrite Horder. exact (processing_order_idem _ _ _ _ Horder).
    + now apply rerun_same.
  - now apply rerun_same.
Qed.

Lemma rerun_with_sorting_is_idempotent_witness :
  output_apart (sample WriteOk) ["file10.pdf"; "file2.pdf"; "file1.pdf"]
               "out.pdf"
  /\ let r1 := merge_pdfs (sample WriteOk)
                 ["file10.pdf"; "file2.pdf"; "file1.pdf"] "out.pdf" true in
     merge_pdfs (world_after (sample WriteOk) r1) (input_paths_after r1)
                "out.pdf" true = r1
     /\ merge_pdfs (world_after (sample WriteOk) r1)
                   ["file10.pdf"; "file2.pdf"; "file1.pdf"] "out.pdf" true = r1.
Proof.
  assert (H : output_apart (sample WriteOk)
                ["file10.pdf"; "file2.pdf"; "file1.pdf"] "out.pdf").
  { repeat constructor; discriminate. }
  split; [exact H|].
  exact (rerun_with_sorting_is_idempotent (sample WriteOk)
           ["file10.pdf"; "file2.pdf"; "file1.pdf"] "out.pdf" H).
Defined.

(** C8, as stated, fails when the output path is among the inputs: the
    first run finds no file there, the second finds the output of the
    first and merges it. *)
Lemma rerun_differs_when_output_is_an_input :
  let l := ["out.pdf"; "a.pdf"] in
  let r1 := merge_pdfs one_document l "out.pdf" true in
  let r2 := merge_pdfs (world_after one_document r1) (input_paths_after r1)
                       "out.pdf" true in
  let r2' := merge_pdfs (world_after one_document r1) l "out.pdf" true in
  outcomes (locals r1) = [("a.pdf", Merged 2); ("out.pdf", SkippedNotFound)]
  /\ outcomes (locals r2) = [("a.pdf", Merged 2); ("out.pdf", Merged 2)]
  /\ outcomes (locals r2') = [("a.pdf", Merged 2); ("out.pdf", Merged 2)]
  /\ merger (locals r1) = ["a1"; "a2"]
  /\ merger (locals r2) = ["a1"; "a2"; "a1"; "a2"]
  /\ merger (locals r2') = ["a1"; "a2"; "a1"; "a2"]
  /\ ~ (outcomes (locals r2) = outcomes (locals r1)
        /\ merger (locals r2) = merger (locals r1)).
Proof.
  vm_compute. repeat split; try reflexivity.
  intros [H _]. discriminate H.
Qed.

(** The same happens when an input path is another spelling of the output
    path: the strings differ, the file is one. *)
Example rerun_differs_when_an_input_names_the_output :
  let l := ["./out.pdf"; "a.pdf"] in
  let r1 := merge_pdfs one_document_here l "out.pdf" true in
  let r2 := merge_pdfs (world_after one_document_here r1)
                       (input_paths_after r1) "out.pdf" true in
  ~ In "out.pdf" l
  /\ ~ output_apart one_document_here l "out.pdf"
  /\ outcomes (locals r1)
     = [("./out.pdf", SkippedNotFound); ("a.pdf", Merged 2)]
  /\ outcomes (locals r2) = [("./out.pdf", Merged 2); ("a.pdf", Merged 2)]
  /\ merger (locals r1) = ["a1"; "a2"]
  /\ merger (locals r2) = ["a1"; "a2"; "a1"; "a2"].
Proof.
  split; [|split].
  - simpl. intros [H|[H|[]]]; discriminate H.
  - intros H. apply List.Forall_inv in H. now apply H.
  - vm_compute. repeat split; reflexivity.
Qed.



(** C10: once a file has been merged the output is opened before anything
    is written to it; when the write then fails the call returns [False]
    and the output path holds what the failed write left, whatever was or
    was not there before; when no file was merged the file system is as it
    was. *)
Theorem write_failure_is_not_atomic
    (w : world) (input_paths : list string) (output_path : string)
    (sort_files : bool) :
  let r := merge_pdfs w input_paths output_path sort_files in
  (some_merged (outcomes (locals r)) ->
     exists body tail,
       calls (locals r) = body ++ COpenOutput output_path :: tail
       /\ Forall (fun c => touches_output c = false) body
       /\ (tail = [CClose] \/ tail = [CWrite output_path; CClose]))
  /\ (some_merged (outcomes (locals r)) ->
      forall remains, on_write w output_path = WriteFails remains ->
        returned r = false
        /\ files_after r = <[output_path := remains]> (files w)
        /\ files_after r !! output_path = Some remains)
  /\ (~ some_merged (outcomes (locals r)) ->
        returned r = false /\ files_after r = files w)
  /\ (let r1 := merge_pdfs (sample (WriteFails (Unparseable PdfReadError)))
                           ["file1.pdf"] "out.pdf" false in
      returned r1 = false /\ sample_files !! "out.pdf" = None
      /\ files_after r1 !! "out.pdf" = Some (Unparseable PdfReadError))
  /\ (let r2 := merge_pdfs (sample (WriteFails (Unparseable PdfReadError)))
                           ["file1.pdf"] "file10.pdf" false in
      returned r2 = false
      /\ sample_files !! "file10.pdf" = Some (plain ["r1"; "r2"])
      /\ files_after r2 !! "file10.pdf" = Some (Unparseable PdfReadError)).
Proof.
  intros r. subst r.
  pose proof (merge_pdfs_effect w input_paths output_path sort_files) as Heff.
  pose proof (none_merged_iff w input_paths output_path sort_files) as Hnone.
  pose proof (merge_pdfs_calls w input_paths output_path sort_files) as Hcalls.
  simpl in Heff.
  split; [|split; [|split; [|split]]].
  - intros Hsome. destruct (none_merged _ _) eqn:En.
    { exfalso. now apply Hnone. }
    rewrite (ending_merged _ _ _ _ En) in Hcalls.
    exists (CPdfWriter
            :: concat (map (calls_for (files w))
                           (effective_order w input_paths sort_files))).
    unfold closing_calls in Hcalls.
    exists (match on_write w output_path with
            | OpenFails => [CClose]
            | _ => [CWrite output_path; CClose]
            end).
    split; [|split].
    + rewrite Hcalls. now destruct (on_write w output_path).
    + constructor; [reflexivity|].
      eapply List.Forall_impl; [|apply loop_calls_plain]. now intros c [_ Hc].
    + destruct (on_write w output_path); auto.
  - intros Hsome remains Hw. destruct (none_merged _ _) eqn:En.
    { exfalso. now apply Hnone. }
    rewrite Hw in Heff. destruct Heff as [Hr Hf].
    split; [exact Hr|]. split; [exact Hf|].
    rewrite Hf. apply fs_lookup_insert_eq.
  - intros Hno. apply Hnone in Hno. now rewrite Hno in Heff.
  - vm_compute. repeat split; reflexivity.
  - vm_compute. repeat split; reflexivity.
Qed.

(** ** Further properties: the sort key *)

(** X1: on ASCII paths the key looks at letters through [lower()] only: two
    such paths that differ in letter case alone have the same key, so
    neither sorts before the other. *)
Theorem natural_sort_key_ignores_case (py : python) (s t : string) :
  Str.all_ascii s = true -> Str.lower s = Str.lower t ->
  natural_sort_key py s = natural_sort_key py t
  /\ natural_lt py s t = false /\ natural_lt py t s = false.
Proof.
  intros Hs H.
  assert (Hk : natural_sort_key py s = natural_sort_key py t)
    by now apply natural_sort_key_same_lower.
  split; [exact Hk|]. split; now apply natural_lt_same_key.
Qed.

Lemma natural_sort_key_ignores_case_witness :
  Str.all_ascii "Scan-A1.PDF" = true
  /\ Str.lower "Scan-A1.PDF" = Str.lower "scan-a1.pdf"
  /\ natural_sort_key sample_python "Scan-A1.PDF"
     = natural_sort_key sample_python "scan-a1.pdf"
  /\ natural_lt sample_python "Scan-A1.PDF" "scan-a1.pdf" = false
  /\ natural_lt sample_python "scan-a1.pdf" "Scan-A1.PDF" = false.
Proof.
  split; [reflexivity|]. split; [reflexivity|].
  apply (natural_sort_key_ignores_case sample_python
           "Scan-A1.PDF" "scan-a1.pdf"); reflexivity.
Defined.

Lemma split_runs_prefix q : forall b cur,
  exists pre cur', forall s,
    Str.split_runs b cur (q +:+ s)
    = pre ++ Str.split_runs (digit_state b q) cur' s.
Proof.
  induction q as [|c q IH]; intros b cur.
  - exists [], cur. intros s. reflexivity.
  - simpl digit_state.
    destruct (Str.is_digit c) eqn:Hc, b.
    + destruct (IH true (Str.snoc cur c)) as (pre & cur' & H).
      exists pre, cur'. intros s. rewrite append_cons. simpl.
      now rewrite Hc, H.
    + destruct (IH true (String c EmptyString)) as (pre & cur' & H).
      exists (cur :: pre), cur'. intros s. rewrite append_cons. simpl.
      now rewrite Hc, H.
    + destruct (IH false (String c EmptyString)) as (pre & cur' & H).
      exists (cur :: pre), cur'. intros s. rewrite append_cons. simpl.
      now rewrite Hc, H.
    + destruct (IH false (Str.snoc cur c)) as (pre & cur' & H).
      exists pre, cur'. intros s. rewrite append_cons. simpl.
      now rewrite Hc, H.
Qed.

Lemma split_runs_digits_then r :
  starts_with_digit r = false ->
  exists rest, forall cur d,
    Str.all_digits d = true ->
    Str.split_runs true cur (d +:+ r) = (cur +:+ d) :: rest.
Proof.
  intros Hr.
  exists (match r with
          | EmptyString => [EmptyString]
          | String c r' => Str.split_runs false (String c EmptyString) r'
          end).
  intros cur d. revert cur. induction d as [|c d IH]; intros cur Hd.
  - rewrite append_nil_l, append_nil_r. destruct r as [|x r]; [reflexivity|].
    simpl in *. now rewrite Hr.
  - simpl in Hd. apply andb_true_iff in Hd as [Hc Hd].
    rewrite append_cons. simpl. rewrite Hc, (IH _ Hd), snoc_append.
    reflexivity.
Qed.

Lemma all_digits_ascii d : Str.all_digits d = true -> Str.all_ascii d = true.
Proof.
  induction d as [|c d IH]; simpl; [reflexivity|].
  intros [Hc Hd]%andb_true_iff. rewrite (IH Hd), andb_true_r.
  unfold Str.is_digit in Hc. apply andb_true_iff in Hc as [_ Hc].
  apply Nat.leb_le in Hc. apply Nat.ltb_lt. lia.
Qed.

Lemma isdigit_all_digits d : Str.isdigit d = true -> Str.all_digits d = true.
Proof. destruct d; [discriminate|]. now intros H. Qed.

(** The runs of an ASCII path cut as [q], a digit run [d], and a rest [r]:
    the digit run is one of them, and the others do not depend on it. *)
Lemma re_split_digits_digit_run q r :
  ends_with_digit q = false -> starts_with_digit r = false ->
  exists before after, forall d,
    Str.isdigit d = true ->
    Str.re_split_digits (q +:+ d +:+ r) = before ++ d :: after.
Proof.
  intros Hq Hr.
  destruct (split_runs_prefix q false EmptyString) as (pre & cur' & Hpre).
  destruct (split_runs_digits_then r Hr) as (rest & Hrest).
  fold (ends_with_digit q) in Hpre. rewrite Hq in Hpre.
  exists (pre ++ [cur']), rest.
  intros d Hd. unfold Str.re_split_digits.
  rewrite Hpre. destruct d as [|c d]; [discriminate|].
  pose proof Hd as Hd'. simpl in Hd'.
  apply andb_true_iff in Hd' as [Hc Hds].
  rewrite append_cons. simpl Str.split_runs. rewrite Hc.
  rewrite (Hrest _ _ Hds), append_cons, append_nil_l.
  now rewrite <- app_assoc.
Qed.

Lemma int_leading_zero d : Str.int (String "0" d) = Str.int d.
Proof. reflexivity. Qed.

(** X2: on an ASCII path a digit run counts as its number: between a part
    that does not end with a digit and a part that does not start with
    one, two digit runs of the same value, both within the limit of [int],
    give the same key; in particular leading zeros do not matter. *)
Theorem natural_sort_key_reads_numbers (py : python) (q r d e : string) :
  Str.all_ascii q = true -> Str.all_ascii r = true ->
  ends_with_digit q = false -> starts_with_digit r = false ->
  Str.isdigit d = true -> Str.isdigit e = true ->
  too_long py d = false -> too_long py e = false ->
  Str.int d = Str.int e ->
  natural_sort_key py (q +:+ d +:+ r) = natural_sort_key py (q +:+ e +:+ r)
  /\ exists before after,
       natural_sort_key py (q +:+ d +:+ r)
       = all_some (before ++ Some (KInt (Str.int d)) :: after).
Proof.
  intros Hqa Hra Hq Hr Hd He Hld Hle Hde.
  destruct (re_split_digits_digit_run q r Hq Hr) as (before & after & H).
  assert (Hascii : forall x, Str.isdigit x = true ->
            Str.all_ascii (q +:+ x +:+ r) = true).
  { intros x Hx. rewrite !all_ascii_append, Hqa, Hra.
    now rewrite (all_digits_ascii x (isdigit_all_digits x Hx)). }
  assert (Hkey : forall x, Str.isdigit x = true -> too_long py x = false ->
            natural_sort_key py (q +:+ x +:+ r)
            = all_some (map (key_of_run py) before
                        ++ Some (KInt (Str.int x))
                        :: map (key_of_run py) after)).
  { intros x Hx Hlx. unfold natural_sort_key, ascii_key.
    rewrite (Hascii x Hx), (H x Hx), map_app. cbn [map].
    unfold key_of_run at 2. now rewrite Hx, Hlx. }
  split.
  - now rewrite (Hkey d Hd Hld), (Hkey e He Hle), Hde.
  - eexists _, _. exact (Hkey d Hd Hld).
Qed.

Lemma natural_sort_key_reads_numbers_witness :
  natural_sort_key sample_python ("v2/file" +:+ "007" +:+ ".pdf")
  = natural_sort_key sample_python ("v2/file" +:+ "7" +:+ ".pdf")
  /\ exists before after,
       natural_sort_key sample_python ("v2/file" +:+ "007" +:+ ".pdf")
       = all_some (before ++ Some (KInt (Str.int "007")) :: after).
Proof.
  apply (natural_sort_key_reads_numbers sample_python
           "v2/file" ".pdf" "007" "7"); reflexivity.
Defined.

(** X3: on the paths that have a key, the order the sort uses is a strict
    weak order: no path sorts before itself, the relation is transitive,
    and of two paths either exactly one sorts before the other or their
    keys are equal.  (A path without a key is compared with nothing: the
    sort raises before it compares.) *)
Theorem natural_lt_strict_weak_order (py : python) :
  (forall s, natural_lt py s s = false)
  /\ (forall s t u,
        natural_lt py s t = true -> natural_lt py t u = true ->
        natural_lt py s u = true)
  /\ (forall s t, natural_lt py s t = true -> natural_lt py t s = false)
  /\ (forall s t,
        natural_sort_key py s <> None -> natural_sort_key py t <> None ->
        natural_lt py s t = false -> natural_lt py t s = false ->
        natural_sort_key py s = natural_sort_key py t)
  /\ (forall s t,
        natural_lt py s t = true ->
        natural_sort_key py s <> None /\ natural_sort_key py t <> None).
Proof.
  assert (Hdef : forall s t,
            natural_lt py s t = true ->
            natural_sort_key py s <> None /\ natural_sort_key py t <> None).
  { intros s t. unfold natural_lt.
    destruct (natural_sort_key py s); [|discriminate].
    destruct (natural_sort_key py t); [|discriminate].
    intros _. split; discriminate. }
  split; [|split; [|split; [|split]]].
  - intros s. now apply natural_lt_same_key.
  - intros s t u Hst Htu.
    destruct (Hdef _ _ Hst) as [Hs Ht]. destruct (Hdef _ _ Htu) as [_ Hu].
    rewrite natural_lt_cmp in * by assumption.
    destruct (path_cmp py s t) eqn:Est; try discriminate.
    destruct (path_cmp py t u) eqn:Etu; try discriminate.
    now rewrite (path_cmp_trans _ _ _ _ Est Etu).
  - intros s t Hst. destruct (Hdef _ _ Hst) as [Hs Ht].
    rewrite natural_lt_cmp in * by assumption.
    now apply path_lt_asym.
  - intros s t Hs Ht. rewrite !natural_lt_cmp by assumption.
    rewrite (path_cmp_antisym py t s).
    destruct (path_cmp py s t) eqn:E; simpl; try discriminate.
    intros _ _. now apply path_cmp_eq.
  - exact Hdef.
Qed.

(** ** Further properties: the run *)

Lemma filter_perm {A} (f : A -> bool) l l' :
  Permutation l l' -> Permutation (List.filter f l) (List.filter f l').
Proof.
  induction 1 as [|x l l' _ IH|x y l|l l' l'' _ IH1 _ IH2]; simpl.
  - constructor.
  - destruct (f x); [now constructor|exact IH].
  - destruct (f x), (f y); try reflexivity. apply perm_swap.
  - now transitivity (List.filter f l').
Qed.

Lemma concat_perm {A} (l l' : list (list A)) :
  Permutation l l' -> Permutation (concat l) (concat l').
Proof.
  induction 1 as [|x l l' _ IH|x y l|l l' l'' _ IH1 _ IH2]; simpl.
  - constructor.
  - now apply Permutation_app_head.
  - rewrite !app_assoc. apply Permutation_app_tail, Permutation_app_comm.
  - now transitivity (concat l').
Qed.

Lemma pages_of_perm fs l l' :
  Permutation l l' -> Permutation (pages_of fs l) (pages_of fs l').
Proof.
  intros H. unfold pages_of. now apply concat_perm, Permutation_map, filter_perm.
Qed.

Lemma none_merged_perm fs l l' :
  Permutation l l' -> none_merged fs l = none_merged fs l'.
Proof.
  intros H. unfold none_merged.
  pose proof (filter_perm (merged_in fs) l l' H) as Hf.
  destruct (List.filter (merged_in fs) l) eqn:E.
  - apply Permutation_nil in Hf. now rewrite Hf.
  - destruct (List.filter (merged_in fs) l'); [|reflexivity].
    symmetry in Hf. apply Permutation_nil in Hf. discriminate.
Qed.

(** X6: when the sort does not raise, sorting changes the order and
    nothing else: with and without [sort_files] the same candidates get the
    same outcomes, the same pages are collected, the same names are
    reported, the total is the same and so is the result. *)
Theorem sorting_changes_the_order_only
    (w : world) (input_paths : list string) (output_path : string) :
  raised (merge_pdfs w input_paths output_path true) = None ->
  let sorted := merge_pdfs w input_paths output_path true in
  let unsorted := merge_pdfs w input_paths output_path false in
  Permutation (outcomes (locals sorted)) (outcomes (locals unsorted))
  /\ Permutation (merger (locals sorted)) (merger (locals unsorted))
  /\ Permutation (pdf_files_processed (locals sorted))
                 (pdf_files_processed (locals unsorted))
  /\ total_pages_added (locals sorted) = total_pages_added (locals unsorted)
  /\ returned sorted = returned unsorted.
Proof.
  intros Hraised. simpl. rewrite merge_pdfs_raised in Hraised.
  destruct (processing_order (interpreter w) input_paths true)
    as [order|] eqn:Horder; [|discriminate].
  pose proof (processing_order_perm _ _ _ _ Horder) as Hperm.
  rewrite !merge_pdfs_outcomes, !merge_pdfs_merger, !merge_pdfs_processed,
    !merge_pdfs_total, !merge_pdfs_returned.
  rewrite (effective_order_some _ _ _ _ Horder), effective_order_unsorted.
  split; [|split; [|split; [|split]]].
  - unfold outcomes_of. now apply Permutation_map.
  - now apply pages_of_perm.
  - now apply Permutation_map, filter_perm.
  - now apply Permutation_length, pages_of_perm.
  - now rewrite (none_merged_perm _ _ _ Hperm).
Qed.

Lemma sorting_changes_the_order_only_witness :
  let l := ["file10.pdf"; "nope.pdf"; "file2.pdf"; "file1.pdf"] in
  let sorted := merge_pdfs (sample WriteOk) l "out.pdf" true in
  let unsorted := merge_pdfs (sample WriteOk) l "out.pdf" false in
  raised sorted = None
  /\ Permutation (outcomes (locals sorted)) (outcomes (locals unsorted))
  /\ Permutation (merger (locals sorted)) (merger (locals unsorted))
  /\ Permutation (pdf_files_processed (locals sorted))
                 (pdf_files_processed (locals unsorted))
  /\ total_pages_added (locals sorted) = total_pages_added (locals unsorted)
  /\ returned sorted = returned unsorted.
Proof.
  intros l.
  assert (H : raised (merge_pdfs (sample WriteOk) l "out.pdf" true) = None)
    by reflexivity.
  split; [exact H|].
  exact (sorting_changes_the_order_only (sample WriteOk) l "out.pdf" H).
Defined.



(** A path that leads to the file of the output path holds what was
    written, under whatever spelling. *)
Example output_seen_through_another_path :
  let r := merge_pdfs one_document_here ["a.pdf"] "out.pdf" false in
  files one_document_here !! "./out.pdf" = None
  /\ files_after r !! "./out.pdf" = Some (written ["a1"; "a2"]).
Proof. vm_compute. split; reflexivity. Qed.

Lemma page_count_of_classify fs p :
  page_count_of (classify fs p)
  = length (if merged_in fs p then document_pages fs p else []).
Proof.
  unfold merged_in. destruct (classify fs p) eqn:E; try reflexivity.
  simpl. now apply classify_merged in E as [-> _].
Qed.

Lemma length_pages_of fs l :
  length (pages_of fs l)
  = list_sum (map (fun po => page_count_of (snd po)) (outcomes_of fs l)).
Proof.
  unfold pages_of, outcomes_of. induction l as [|p l IH]; [reflexivity|].
  simpl map at 2. simpl list_sum. rewrite <- IH, page_count_of_classify.
  simpl. destruct (merged_in fs p); simpl; [|reflexivity].
  now rewrite length_app.
Qed.

(** X8: the names listed as merged are the base names of the candidates
    whose outcome is [Merged], in the order of processing, one for each
    such outcome; and the total that is printed is the sum of their page
    counts. *)
Theorem processed_names_and_total
    (w : world) (input_paths : list string) (output_path : string)
    (sort_files : bool) :
  let r := merge_pdfs w input_paths output_path sort_files in
  pdf_files_processed (locals r)
  = map Str.basename (merged_paths (outcomes (locals r)))
  /\ total_pages_added (locals r)
     = list_sum (map (fun po => page_count_of (snd po)) (outcomes (locals r))).
Proof.
  simpl. rewrite merge_pdfs_processed, merge_pdfs_total, merge_pdfs_outcomes,
    merged_paths_outcomes_of.
  split; [reflexivity|apply length_pages_of].
Qed.

(** X9: without sorting, a run over one list followed by another is the
    two runs put end to end: outcomes, pages and names are concatenated and
    the totals add up. *)
Theorem unsorted_merge_of_a_concatenation
    (w : world) (first second : list string) (output_path : string) :
  let r := merge_pdfs w (first ++ second) output_path false in
  let r1 := merge_pdfs w first output_path false in
  let r2 := merge_pdfs w second output_path false in
  outcomes (locals r) = outcomes (locals r1) ++ outcomes (locals r2)
  /\ merger (locals r) = merger (locals r1) ++ merger (locals r2)
  /\ pdf_files_processed (locals r)
     = pdf_files_processed (locals r1) ++ pdf_files_processed (locals r2)
  /\ total_pages_added (locals r)
     = total_pages_added (locals r1) + total_pages_added (locals r2).
Proof.
  simpl.
  rewrite !merge_pdfs_outcomes, !merge_pdfs_merger, !merge_pdfs_processed,
    !merge_pdfs_total, !effective_order_unsorted.
  unfold outcomes_of, pages_of.
  rewrite !List.filter_app, !map_app, concat_app, length_app.
  repeat split; reflexivity.
Qed.

(** X10: what [reader.decrypt('')] returns is not looked at: when the call
    returns, the encrypted document gets the outcome, and adds the pages
    and the name, that the same document would without the encryption
    flag. *)
Theorem decrypt_result_is_discarded
    (fs : file_system) (st : state) (p : string) (d : pdf) :
  fs !! p = Some (Pdf d) -> is_encrypted d = true -> decrypt d "" = None ->
  let plain_fs := <[p := Pdf (unencrypted d)]> fs in
  outcomes (process fs st p) = outcomes (process plain_fs st p)
  /\ merger (process fs st p) = merger (process plain_fs st p)
  /\ pdf_files_processed (process fs st p)
     = pdf_files_processed (process plain_fs st p)
  /\ total_pages_added (process fs st p)
     = total_pages_added (process plain_fs st p).
Proof.
  intros Hp Henc Hdec plain_fs. subst plain_fs.
  unfold process. rewrite Hp, fs_lookup_insert_eq, Henc, Hdec. simpl.
  destruct (negb _); [repeat split; reflexivity|].
  unfold count_and_append. simpl.
  destruct (pages d); [repeat split; reflexivity|].
  destruct (length l =? 0)%nat; [repeat split; reflexivity|].
  destruct (append_raises d); repeat split; reflexivity.
Qed.

Lemma decrypt_result_is_discarded_witness :
  let fs : file_system := <["u.pdf" := unlocked ["u1"; "u2"] ]> ∅ in
  let plain_fs := <["u.pdf" := Pdf (unencrypted
                      {| is_encrypted := true; decrypt := fun _ => None;
                         pages := inr ["u1"; "u2"];
                         append_raises := None |})]> fs in
  outcomes (process fs initial "u.pdf")
  = outcomes (process plain_fs initial "u.pdf")
  /\ merger (process fs initial "u.pdf")
     = merger (process plain_fs initial "u.pdf")
  /\ pdf_files_processed (process fs initial "u.pdf")
     = pdf_files_processed (process plain_fs initial "u.pdf")
  /\ total_pages_added (process fs initial "u.pdf")
     = total_pages_added (process plain_fs initial "u.pdf").
Proof.
  intros fs.
  apply (decrypt_result_is_discarded fs initial "u.pdf"
           {| is_encrypted := true; decrypt := fun _ => None;
              pages := inr ["u1"; "u2"]; append_raises := None |});
    reflexivity.
Defined.

Lemma calls_for_append fs p q :
  In (CAppend q) (calls_for fs p) ->
  q = p /\ Str.endswith (Str.lower p) ".pdf" = true
  /\ exists d ps,
       fs !! p = Some (Pdf d) /\ pages d = inr ps /\ ps <> []
       /\ (is_encrypted d = true -> decrypt d "" = None).
Proof.
  unfold calls_for, process, count_and_append.
  destruct (fs !! p) as [n|] eqn:Hp; simpl; [|contradiction].
  destruct (Str.endswith (Str.lower p) ".pdf") eqn:Hext; simpl;
    [|contradiction].
  destruct n as [| | |d]; simpl; try contradiction.
  destruct (is_encrypted d) eqn:Henc;
    [destruct (decrypt d "") eqn:Hdec|]; simpl;
    (destruct (pages d) as [err|[|x ps]] eqn:Hps; simpl;
     [| |destruct (append_raises d); simpl]);
    intros H; repeat (destruct H as [H|H]; try discriminate);
    try contradiction;
    injection H as <-; (split; [reflexivity|]); (split; [reflexivity|]);
    exists d, (x :: ps); repeat split; auto; congruence.
Qed.

(** X11: [merger.append] is called for nothing but an input path that
    exists, ends in ".pdf", parses, was decrypted without an exception when
    encrypted, and has at least one page. *)
Theorem only_readable_documents_are_appended
    (w : world) (input_paths : list string) (output_path : string)
    (sort_files : bool) (p : string) :
  In (CAppend p)
     (calls (locals (merge_pdfs w input_paths output_path sort_files))) ->
  In p input_paths
  /\ Str.endswith (Str.lower p) ".pdf" = true
  /\ exists d ps,
       files w !! p = Some (Pdf d) /\ pages d = inr ps /\ ps <> []
       /\ (is_encrypted d = true -> decrypt d "" = None).
Proof.
  rewrite merge_pdfs_calls.
  intros [Hin|[Hin|Hin]%in_app_or]; [discriminate| |].
  - apply in_concat in Hin as (cs & Hcs & Hin).
    apply in_map_iff in Hcs as (q & <- & Hq).
    apply calls_for_append in Hin as (-> & Hext & Hd).
    split; [|split; assumption].
    now apply effective_order_in in Hq.
  - exfalso. unfold ending, closing_calls in Hin.
    destruct (processing_order _ _ _); [|destruct Hin].
    destruct (none_merged _ _).
    + destruct Hin as [Hin|[]]. discriminate.
    + destruct (on_write w output_path); simpl in Hin;
        repeat (destruct Hin as [Hin|Hin]; try discriminate); contradiction.
Qed.

Lemma only_readable_documents_are_appended_witness :
  In "file1.pdf" ["file2.pdf"; "file1.pdf"]
  /\ Str.endswith (Str.lower "file1.pdf") ".pdf" = true
  /\ exists d ps,
       files (sample WriteOk) !! "file1.pdf" = Some (Pdf d)
       /\ pages d = inr ps /\ ps <> []
       /\ (is_encrypted d = true -> decrypt d "" = None).
Proof.
  apply (only_readable_documents_are_appended (sample WriteOk)
           ["file2.pdf"; "file1.pdf"] "out.pdf" false "file1.pdf").
  vm_compute. right. right. left. reflexivity.
Defined.

(** ** Further properties: directory discovery and the command line *)

Lemma basename_from_no_slash name : forall cur,
  no_slash name = true -> Str.basename_from cur name = cur +:+ name.
Proof.
  induction name as [|c name IH]; intros cur H; simpl.
  - now rewrite append_nil_r.
  - simpl in H. apply andb_true_iff in H as [Hc Hn].
    apply negb_true_iff in Hc. rewrite Hc, (IH _ Hn), snoc_append.
    reflexivity.
Qed.

Lemma basename_from_slash a name : forall cur,
  no_slash name = true ->
  Str.basename_from cur (a +:+ String "/" name) = name.
Proof.
  induction a as [|c a IH]; intros cur H.
  - rewrite append_nil_l. simpl. now rewrite basename_from_no_slash.
  - rewrite append_cons. simpl. destruct (Ascii.eqb c "/"); now apply IH.
Qed.

Lemma no_slash_not_absolute name :
  no_slash name = true -> Str.startswith_slash name = false.
Proof.
  destruct name as [|c name]; simpl; [reflexivity|].
  intros [Hc _]%andb_true_iff. now apply negb_true_iff in Hc.
Qed.

Lemma basename_join d name :
  no_slash name = true -> Str.basename (Str.join d name) = name.
Proof.
  intros H. unfold Str.join, Str.basename.
  rewrite (no_slash_not_absolute name H).
  destruct (String.eqb_spec d EmptyString) as [->|Hd]; simpl.
  - rewrite append_nil_l. now rewrite basename_from_no_slash.
  - destruct (Str.endswith d "/") eqn:E.
    + apply endswith_spec in E as [pre ->]. rewrite append_assoc.
      change (String "/" EmptyString +:+ name) with (String "/" name).
      now apply basename_from_slash.
    + change ("/" +:+ name) with (String "/" name).
      now apply basename_from_slash.
Qed.

Lemma join_ends_with_name d name : exists pre, Str.join d name = pre +:+ name.
Proof.
  unfold Str.join. destruct (Str.startswith_slash name).
  - exists EmptyString. reflexivity.
  - destruct (String.eqb d EmptyString || Str.endswith d "/").
    + now exists d.
    + exists (d +:+ "/"). now rewrite append_assoc.
Qed.

Lemma find_pdfs_in_directory_found w d paths :
  find_pdfs_in_directory w d = inr paths ->
  exists entries,
    files w !! d = Some (Dir entries)
    /\ paths = map (Str.join d) (List.filter is_pdf_name entries).
Proof.
  unfold find_pdfs_in_directory.
  destruct (files w !! d) as [[entries| | |]|]; try discriminate.
  rewrite scan_entries. intros [= <-]. now exists entries.
Qed.

(** X12: joining the directory and a name of its listing and taking the
    base name again gives the name back: the base names of the paths found
    are the names of the listing that end in ".pdf", in order. *)
Theorem discovered_paths_keep_their_names
    (w : world) (directory_path : string) (entries : list string) :
  files w !! directory_path = Some (Dir entries) ->
  Forall (fun name => no_slash name = true) entries ->
  exists paths,
    find_pdfs_in_directory w directory_path = inr paths
    /\ map Str.basename paths = List.filter is_pdf_name entries.
Proof.
  intros Hd Hnames. unfold find_pdfs_in_directory. rewrite Hd, scan_entries.
  eexists. split; [reflexivity|]. simpl. rewrite map_map. clear Hd.
  induction Hnames as [|name entries Hname _ IH]; simpl; [reflexivity|].
  destruct (is_pdf_name name); simpl; [|exact IH].
  now rewrite (basename_join _ _ Hname), IH.
Qed.

Lemma discovered_paths_keep_their_names_witness :
  exists paths,
    find_pdfs_in_directory (sample WriteOk) "docs" = inr paths
    /\ map Str.basename paths
       = List.filter is_pdf_name ["a.pdf"; "notes.txt"; "B.PDF"; "sub"].
Proof.
  apply (discovered_paths_keep_their_names (sample WriteOk) "docs"
           ["a.pdf"; "notes.txt"; "B.PDF"; "sub"]).
  - vm_compute. reflexivity.
  - repeat constructor.
Defined.

(** X13: every path the scan returns ends in ".pdf" in some letter case,
    so [merge_pdfs], in whatever world it then runs, never skips one of
    them as not being a PDF. *)
Theorem discovered_paths_pass_the_extension_check
    (w : world) (directory_path : string) (paths : list string) :
  find_pdfs_in_directory w directory_path = inr paths ->
  Forall (fun p => Str.endswith (Str.lower p) ".pdf" = true) paths
  /\ forall w' output_path sort_files p o,
       In (p, o)
          (outcomes (locals (merge_pdfs w' paths output_path sort_files))) ->
       o <> SkippedNotPdf.
Proof.
  intros (entries & _ & ->)%find_pdfs_in_directory_found.
  assert (Hext : Forall (fun p => Str.endswith (Str.lower p) ".pdf" = true)
                   (map (Str.join directory_path)
                        (List.filter is_pdf_name entries))).
  { apply List.Forall_forall. intros p (name & <- & Hname)%in_map_iff.
    apply filter_In in Hname as [_ Hname]. unfold is_pdf_name in Hname.
    apply endswith_spec in Hname as [stem Hstem].
    destruct (join_ends_with_name directory_path name) as [pre ->].
    apply endswith_spec. exists (Str.lower pre +:+ stem).
    now rewrite lower_append, Hstem, append_assoc. }
  split; [exact Hext|].
  intros w' out s p o. rewrite merge_pdfs_outcomes.
  intros [Hp ->]%In_outcomes_of.
  apply effective_order_in in Hp.
  rewrite List.Forall_forall in Hext. specialize (Hext p Hp).
  unfold classify. destruct (files w' !! p) as [n|]; [|discriminate].
  rewrite Hext. simpl. destruct n as [| | |d]; try discriminate.
  destruct (decryption_fails d); [discriminate|].
  destruct (pages d); [discriminate|].
  destruct (length l =? 0)%nat; [discriminate|].
  destruct (append_raises d); discriminate.
Qed.

Lemma discovered_paths_pass_the_extension_check_witness :
  Forall (fun p => Str.endswith (Str.lower p) ".pdf" = true)
         ["docs/a.pdf"; "docs/B.PDF"]
  /\ forall w' output_path sort_files p o,
       In (p, o)
          (outcomes (locals (merge_pdfs w' ["docs/a.pdf"; "docs/B.PDF"]
                                        output_path sort_files))) ->
       o <> SkippedNotPdf.
Proof.
  apply (discovered_paths_pass_the_extension_check (sample WriteOk) "docs").
  vm_compute. reflexivity.
Defined.

(** X14: a directory given with [-d] takes the place of the positional
    paths, which then play no part; an empty [-d] value counts as no [-d]
    at all. *)
Theorem directory_option_overrides_positional_paths
    (w : world) (d : string) (paths paths' : list string)
    (out : string) (s : bool) :
  (d <> EmptyString ->
   Cli.main w {| Cli.input := paths; Cli.directory := Some d;
                 Cli.output := out; Cli.sort := s |}
   = Cli.main w {| Cli.input := paths'; Cli.directory := Some d;
                   Cli.output := out; Cli.sort := s |})
  /\ Cli.main w {| Cli.input := paths; Cli.directory := Some EmptyString;
                   Cli.output := out; Cli.sort := s |}
     = Cli.main w {| Cli.input := paths; Cli.directory := None;
                     Cli.output := out; Cli.sort := s |}.
Proof.
  split; [|reflexivity].
  intros Hd. unfold Cli.main, Cli.input_files, Cli.given. simpl.
  destruct (String.eqb_spec d EmptyString); [contradiction|reflexivity].
Qed.

(** X15: the script ends with status 0, 1 or 2.  It is 2 exactly on a
    usage error, which [parse_args] ends the script with, and 0 on [-h],
    in both cases without running [merge_pdfs].  Otherwise it is 0 exactly
    when [merge_pdfs] was run, some candidate was merged and the output was
    written.  With neither a directory nor a positional path, with a [-d]
    path that is not a directory, or with a directory without any PDF, it
    is 1 and [merge_pdfs] is not run; it is 1 too when [merge_pdfs]
    raises. *)
Theorem script_exit_status (w : world) (p : Cli.parse) :
  (fst (Cli.script w p) = 0 \/ fst (Cli.script w p) = 1
   \/ fst (Cli.script w p) = 2)
  /\ Cli.script w Cli.UsageError = (2, None)
  /\ Cli.script w Cli.Help = (0, None)
  /\ (fst (Cli.script w p) = 2 <-> p = Cli.UsageError)
  /\ (fst (Cli.script w p) = 0
      <-> p = Cli.Help
          \/ exists a r,
               p = Cli.Namespace a /\ snd (Cli.script w p) = Some r
               /\ some_merged (outcomes (locals r))
               /\ on_write w (Cli.output a) = WriteOk)
  /\ (forall a, p = Cli.Namespace a ->
        (Cli.given (Cli.directory a) = None -> Cli.input a = [] ->
           Cli.script w p = (1, None))
        /\ (forall d, Cli.given (Cli.directory a) = Some d ->
              (forall entries, files w !! d <> Some (Dir entries)) ->
              Cli.script w p = (1, None))
        /\ (forall d entries, Cli.given (Cli.directory a) = Some d ->
              files w !! d = Some (Dir entries) ->
              List.filter is_pdf_name entries = [] ->
              Cli.script w p = (1, None))
        /\ (forall r, snd (Cli.script w p) = Some r -> raised r <> None ->
              fst (Cli.script w p) = 1)).
Proof.
  assert (Hrun : forall a paths,
            returned (merge_pdfs w paths (Cli.output a) (Cli.sort a)) = true
            <-> some_merged (outcomes (locals
                  (merge_pdfs w paths (Cli.output a) (Cli.sort a))))
                /\ on_write w (Cli.output a) = WriteOk).
  { intros a paths. rewrite merge_pdfs_returned, andb_true_iff, negb_true_iff.
    pose proof (none_merged_iff w paths (Cli.output a) (Cli.sort a)) as Hn.
    split.
    - intros [Hm Hw]. split.
      + destruct (classic_some_merged (outcomes (locals
                   (merge_pdfs w paths (Cli.output a) (Cli.sort a)))))
          as [H|H]; [exact H|]. apply Hn in H. congruence.
      + now destruct (on_write w (Cli.output a)).
    - intros [Hm ->]. split; [|reflexivity].
      destruct (none_merged _ _); [|reflexivity].
      exfalso. now apply Hn. }
  assert (Hexit : forall a code,
            Cli.input_files w a = inl (SystemExit code) -> code = 1).
  { intros a code E. unfold Cli.input_files in E.
    destruct (Cli.given _) as [d|].
    - unfold find_pdfs_in_directory in E.
      destruct (files w !! d) as [[entries| | |]|]; try (now inversion E).
      destruct (fold_left _ _ _); now inversion E.
    - destruct (Cli.input a); now inversion E. }
  assert (Hmain : forall a,
            (fst (Cli.main w a) = 0 \/ fst (Cli.main w a) = 1)
            /\ (fst (Cli.main w a) = 0
                <-> exists r, snd (Cli.main w a) = Some r
                              /\ some_merged (outcomes (locals r))
                              /\ on_write w (Cli.output a) = WriteOk)).
  { intros a. unfold Cli.main.
    destruct (Cli.input_files w a) as [[code]|paths] eqn:E; simpl.
    - rewrite (Hexit a code E). split; [now right|].
      split; [discriminate|intros (r & Hr & _); discriminate].
    - specialize (Hrun a paths).
      destruct (returned _) eqn:Hret; (split; [auto|split]).
      + intros _. eexists. split; [reflexivity|]. now apply Hrun.
      + reflexivity.
      + discriminate.
      + intros (r & [= <-] & Hm & Hw).
        assert (false = true) by (apply Hrun; auto). discriminate. }
  split; [|split; [reflexivity|split; [reflexivity|split; [|split]]]].
  - destruct p as [| |a]; simpl; auto.
    destruct (Hmain a) as [[H|H] _]; auto.
  - destruct p as [| |a]; simpl; split; try discriminate; try reflexivity.
    destruct (Hmain a) as [[H|H] _]; rewrite H; discriminate.
  - destruct p as [| |a]; simpl.
    + split; [discriminate|].
      intros [H|(a & r & H & _)]; discriminate.
    + split; [now left|reflexivity].
    + destruct (Hmain a) as [_ H]. rewrite H. split.
      * intros (r & Hr & Hm & Hw). right. now exists a, r.
      * intros [Hp|(a' & r & [= <-] & Hr & Hm & Hw)]; [discriminate|].
        now exists r.
  - intros a ->. simpl. unfold Cli.main. split; [|split; [|split]].
    + intros Hd Hin. unfold Cli.input_files. now rewrite Hd, Hin.
    + intros d Hd Hnot. unfold Cli.input_files, find_pdfs_in_directory.
      rewrite Hd.
      destruct (files w !! d) as [[entries| | |]|]; try reflexivity.
      now destruct (Hnot entries).
    + intros d entries Hd Hdir Hnone.
      unfold Cli.input_files, find_pdfs_in_directory.
      now rewrite Hd, Hdir, scan_entries, Hnone.
    + intros r Hr Hraised.
      destruct (Cli.input_files w a) as [[code]|paths]; [discriminate|].
      simpl in *. injection Hr as <-.
      rewrite merge_pdfs_raised in Hraised. rewrite merge_pdfs_returned.
      unfold effective_order.
      destruct (processing_order _ _ _); [congruence|reflexivity].
Qed.

(** ** Further properties: the reader *)









(** X17: with a page number, [read_pdf_file] raises its [ValueError]
    exactly when the number is below 1 or above the number of pages; a
    number within range gives the text of that page, counted from 1,
    whatever happens with the other pages. *)
Theorem read_pdf_file_one_page
    (fs : gmap string Speech.file) (path : string) (f : Speech.file)
    (pages : list (option string)) (n : Z) :
  fs !! path = Some f -> Speech.pdf_pages f = Some pages ->
  ((exists message,
      Speech.read_pdf_file fs path (Some n) = inl (Speech.ValueError message))
   <-> (n < 1 \/ Z.of_nat (length pages) < n)%Z)
  /\ (forall before page_text after,
        pages = before ++ Some page_text :: after ->
        n = (Z.of_nat (length before) + 1)%Z ->
        Speech.read_pdf_file fs path (Some n)
        = inr ("Reading page " +:+ Speech.str_of_int n +:+ ":" +:+ Speech.nl
               +:+ page_text)).
Proof.
  intros Hf Hpages. unfold Speech.read_pdf_file. rewrite Hf, Hpages.
  split.
  - destruct (n <? 1)%Z eqn:Hlo; [|destruct (Z.of_nat (length pages) <? n)%Z eqn:Hhi];
      simpl.
    + apply Z.ltb_lt in Hlo. split; [auto|]. intros _. eauto.
    + apply Z.ltb_lt in Hhi. split; [auto|]. intros _. eauto.
    + apply Z.ltb_ge in Hlo, Hhi. split; [|lia].
      intros [message H].
      destruct (nth_error pages (Z.to_nat (n - 1))) as [[t|]|]; discriminate.
  - intros before page_text after -> ->.
    rewrite length_app. simpl length.
    replace (Z.of_nat (length before) + 1 <? 1)%Z with false
      by (symmetry; apply Z.ltb_ge; lia).
    replace (Z.of_nat (length before + S (length after))
             <? Z.of_nat (length before) + 1)%Z with false
      by (symmetry; apply Z.ltb_ge; lia).
    simpl.
    replace (Z.to_nat (Z.of_nat (length before) + 1 - 1)) with (length before)
      by lia.
    rewrite nth_error_app2 by lia. now rewrite Nat.sub_diag.
Qed.

Lemma read_pdf_file_one_page_witness :
  let fs : gmap string Speech.file :=
    <["b.pdf" := {| Speech.text := None;
                    Speech.pdf_pages := Some [Some "one"; None; Some "three"] |}]> ∅ in
  ((exists message,
      Speech.read_pdf_file fs "b.pdf" (Some 3%Z)
      = inl (Speech.ValueError message))
   <-> (3 < 1 \/ Z.of_nat (length [Some "one"; None; Some "three"]) < 3)%Z)
  /\ (forall before page_text after,
        [Some "one"; None; Some "three"] = before ++ Some page_text :: after ->
        3%Z = (Z.of_nat (length before) + 1)%Z ->
        Speech.read_pdf_file fs "b.pdf" (Some 3%Z)
        = inr ("Reading page " +:+ Speech.str_of_int 3 +:+ ":" +:+ Speech.nl
               +:+ page_text)).
Proof.
  intros fs.
  apply (read_pdf_file_one_page fs "b.pdf"
           {| Speech.text := None;
              Speech.pdf_pages := Some [Some "one"; None; Some "three"] |});
    reflexivity.
Defined.

Lemma read_pages_all texts : forall (first : Z) full_text,
  Speech.read_pages first (map Some texts) full_text
  = inr (full_text
         +:+ join_strings
               (imap (fun i t => Speech.page_block (first + Z.of_nat i) t)
                     texts)).
Proof.
  induction texts as [|t texts IH]; intros first full_text;
    cbn [map Speech.read_pages].
  - cbn. now rewrite append_nil_r.
  - rewrite IH, append_assoc. cbn [imap join_strings fold_right].
    rewrite Z.add_0_r. do 3 f_equal. unfold join_strings. f_equal.
    apply imap_ext. intros i x _. cbn. f_equal. lia.
Qed.

Lemma read_pages_fails pages : forall i full_text,
  In None pages -> Speech.read_pages i pages full_text = inl Speech.Raised.
Proof.
  induction pages as [|[t|] pages IH]; intros i full_text Hin; simpl.
  - contradiction.
  - destruct Hin as [Hin|Hin]; [discriminate|]. now apply IH.
  - reflexivity.
Qed.

(** X18: without a page number, [read_pdf_file] returns the blocks of all
    pages in document order, each under the header of its number, counted
    from 1; for a document without pages that is the empty string.  A
    single page whose text cannot be extracted makes the whole reading
    fail. *)
Theorem read_pdf_file_whole_document
    (fs : gmap string Speech.file) (path : string) (f : Speech.file)
    (pages : list (option string)) :
  fs !! path = Some f -> Speech.pdf_pages f = Some pages ->
  (forall texts,
     pages = map Some texts ->
     Speech.read_pdf_file fs path None
     = inr (join_strings
              (imap (fun i t => Speech.page_block (Z.of_nat (S i)) t) texts)))
  /\ (pages = [] -> Speech.read_pdf_file fs path None = inr EmptyString)
  /\ (In None pages ->
      Speech.read_pdf_file fs path None = inl Speech.Raised).
Proof.
  intros Hf Hpages. unfold Speech.read_pdf_file. rewrite Hf, Hpages.
  split; [|split].
  - intros texts ->. rewrite read_pages_all, append_nil_l. do 2 f_equal.
    apply imap_ext. intros i x _. f_equal. lia.
  - now intros ->.
  - apply read_pages_fails.
Qed.

Lemma read_pdf_file_whole_document_witness :
  let fs : gmap string Speech.file :=
    <["b.pdf" := {| Speech.text := None;
                    Speech.pdf_pages := Some [Some "one"; Some "two"] |}]> ∅ in
  (forall texts,
     [Some "one"; Some "two"] = map Some texts ->
     Speech.read_pdf_file fs "b.pdf" None
     = inr (join_strings
              (imap (fun i t => Speech.page_block (Z.of_nat (S i)) t) texts)))
  /\ ([Some "one"; Some "two"] = [] ->
      Speech.read_pdf_file fs "b.pdf" None = inr EmptyString)
  /\ (In None [Some "one"; Some "two"] ->
      Speech.read_pdf_file fs "b.pdf" None = inl Speech.Raised).
Proof.
  intros fs.
  apply (read_pdf_file_whole_document fs "b.pdf"
           {| Speech.text := None;
              Speech.pdf_pages := Some [Some "one"; Some "two"] |});
    reflexivity.
Defined.

Lemma no_slash_append a b : no_slash (a +:+ b) = no_slash a && no_slash b.
Proof.
  induction a as [|c a IH]; [reflexivity|].
  rewrite append_cons. simpl. now rewrite IH, andb_assoc.
Qed.

Lemma no_dot_append a b : no_dot (a +:+ b) = no_dot a && no_dot b.
Proof.
  induction a as [|c a IH]; [reflexivity|].
  rewrite append_cons. simpl. now rewrite IH, andb_assoc.
Qed.

Lemma basename_from_no_slash_result p : forall cur,
  no_slash cur = true -> no_slash (Str.basename_from cur p) = true.
Proof.
  induction p as [|c p IH]; intros cur Hcur; simpl; [exact Hcur|].
  destruct (Ascii.eqb c "/") eqn:Hc; apply IH; [reflexivity|].
  unfold Str.snoc. rewrite no_slash_append, Hcur. simpl. now rewrite Hc.
Qed.

Lemma basename_from_suffix p : forall cur pre root,
  pre = root +:+ cur ->
  exists root', pre +:+ p = root' +:+ Str.basename_from cur p.
Proof.
  induction p as [|c p IH]; intros cur pre root ->; simpl.
  - exists root. now rewrite append_nil_r.
  - destruct (Ascii.eqb c "/").
    + destruct (IH EmptyString ((root +:+ cur) +:+ String c EmptyString)
                  ((root +:+ cur) +:+ String c EmptyString)) as [r Hr].
      { now rewrite !append_nil_r. }
      exists r. rewrite <- Hr, !append_assoc. reflexivity.
    + destruct (IH (Str.snoc cur c) ((root +:+ cur) +:+ String c EmptyString)
                  root) as [r Hr].
      { unfold Str.snoc. now rewrite append_assoc. }
      exists r. rewrite <- Hr, !append_assoc. reflexivity.
Qed.

Lemma ext_scan_shaped s : forall named ext,
  no_slash s = true -> extension_shaped ext ->
  extension_shaped (Speech.ext_scan named ext s).
Proof.
  induction s as [|c s IH]; intros named ext Hs Hext; simpl; [exact Hext|].
  simpl in Hs. apply andb_true_iff in Hs as [Hc Hs].
  apply negb_true_iff in Hc.
  destruct (Ascii.eqb c ".") eqn:Hdot; apply IH; try exact Hs.
  - destruct named; [right; exists EmptyString; split; auto|now left].
    apply Ascii.eqb_eq in Hdot. now subst c.
  - destruct (String.eqb_spec ext EmptyString) as [->|Hne]; [now left|].
    destruct Hext as [->|(rest & -> & Hd & Hsl)]; [contradiction|].
    right. exists (Str.snoc rest c). unfold Str.snoc.
    rewrite append_cons, no_dot_append, no_slash_append, Hd, Hsl. simpl.
    now rewrite Hdot, Hc.
Qed.

Lemma ext_scan_suffix s : forall named ext pre root,
  pre = root +:+ ext ->
  exists root', pre +:+ s = root' +:+ Speech.ext_scan named ext s.
Proof.
  induction s as [|c s IH]; intros named ext pre root ->; simpl.
  - exists root. now rewrite append_nil_r.
  - destruct (Ascii.eqb c ".") eqn:Hdot.
    + destruct named.
      * destruct (IH true (String c EmptyString)
                    ((root +:+ ext) +:+ String c EmptyString)
                    (root +:+ ext)) as [r Hr]; [reflexivity|].
        exists r. rewrite <- Hr, !append_assoc. reflexivity.
      * destruct (IH false EmptyString
                    ((root +:+ ext) +:+ String c EmptyString)
                    ((root +:+ ext) +:+ String c EmptyString)) as [r Hr].
        { now rewrite !append_nil_r. }
        exists r. rewrite <- Hr, !append_assoc. reflexivity.
    + destruct (String.eqb_spec ext EmptyString) as [->|Hne].
      * destruct (IH true EmptyString
                    ((root +:+ EmptyString) +:+ String c EmptyString)
                    ((root +:+ EmptyString) +:+ String c EmptyString))
          as [r Hr].
        { now rewrite !append_nil_r. }
        exists r. rewrite <- Hr, !append_assoc. reflexivity.
      * destruct (IH true (Str.snoc ext c)
                    ((root +:+ ext) +:+ String c EmptyString) root)
          as [r Hr].
        { unfold Str.snoc. now rewrite append_assoc. }
        exists r. rewrite <- Hr, !append_assoc. reflexivity.
Qed.

Lemma splitext_ext_suffix p : exists root, p = root +:+ Speech.splitext_ext p.
Proof.
  unfold Speech.splitext_ext, Str.basename.
  destruct (basename_from_suffix p EmptyString EmptyString EmptyString)
    as [dir Hdir]; [reflexivity|].
  rewrite append_nil_l in Hdir.
  destruct (ext_scan_suffix (Str.basename_from EmptyString p) false EmptyString
              dir dir) as [root Hroot]; [now rewrite append_nil_r|].
  exists root. now rewrite <- Hroot.
Qed.

(** X19: the extension [process_file] goes by is the end of the path; it is
    empty or a dot followed by characters that are neither dots nor
    slashes.  Whenever it is ".pdf" in some letter case, the path also
    passes the test [merge_pdfs] makes on its candidates; a file named
    ".pdf" shows that the converse fails. *)
Theorem splitext_extension (p : string) :
  (exists root, p = root +:+ Speech.splitext_ext p)
  /\ extension_shaped (Speech.splitext_ext p)
  /\ (Str.lower (Speech.splitext_ext p) = ".pdf" ->
      Str.endswith (Str.lower p) ".pdf" = true)
  /\ (Speech.splitext_ext ".pdf" = EmptyString
      /\ Str.endswith (Str.lower ".pdf") ".pdf" = true).
Proof.
  split; [apply splitext_ext_suffix|]. split; [|split].
  - unfold Speech.splitext_ext. apply ext_scan_shaped; [|now left].
    now apply basename_from_no_slash_result.
  - intros Hext. destruct (splitext_ext_suffix p) as [root Hroot].
    apply endswith_spec. exists (Str.lower root).
    now rewrite Hroot at 1; rewrite lower_append, Hext.
  - split; reflexivity.
Qed.

(** X20: [process_file] speaks only what it has read: for a path that does
    not exist, or whose extension is neither ".txt" nor ".pdf" in any
    letter case, or whose reading fails, the engine is not called; when it
    is, the calls are those of [speak_text] on the content read, at rate
    150.  For a text file the page number plays no part. *)
Theorem process_file_speaks_what_it_read
    (fs : gmap string Speech.file) (voices : list Speech.voice)
    (file_path : string) (page_number : option Z) :
  let ext := Str.lower (Speech.splitext_ext file_path) in
  let done := Speech.process_file fs voices file_path page_number in
  (fs !! file_path = None -> done = Speech.FileNotFound)
  /\ (fs !! file_path <> None -> ext <> ".txt" -> ext <> ".pdf" ->
      done = Speech.Unsupported)
  /\ (forall calls,
        done = Speech.Spoke calls ->
        exists content,
          calls = Speech.speak_text voices content 150
          /\ ((ext = ".txt" /\ Speech.read_text_file fs file_path = inr content)
              \/ (ext = ".pdf"
                  /\ Speech.read_pdf_file fs file_path page_number
                     = inr content)))
  /\ (ext = ".txt" ->
      done = Speech.process_file fs voices file_path None).
Proof.
  intros ext done. subst done. unfold Speech.process_file. fold ext.
  split; [|split; [|split]].
  - now intros ->.
  - intros Hex Htxt Hpdf. destruct (fs !! file_path); [|congruence].
    destruct (String.eqb_spec ext ".txt"); [contradiction|].
    destruct (String.eqb_spec ext ".pdf"); [contradiction|reflexivity].
  - intros calls. destruct (fs !! file_path); [|discriminate].
    destruct (String.eqb_spec ext ".txt") as [Htxt|_].
    + destruct (Speech.read_text_file fs file_path) as [e|content];
        [discriminate|].
      intros [= <-]. exists content. auto.
    + destruct (String.eqb_spec ext ".pdf") as [Hpdf|_]; [|discriminate].
      destruct (Speech.read_pdf_file fs file_path page_number) as [e|content];
        [discriminate|].
      intros [= <-]. exists content. auto.
  - intros ->. reflexivity.
Qed.
